(** * ucon: request routing, middleware chain and request-object mapping

    A shallow embedding of the dispatch core of [github.com/favclip/ucon]
    (vendored by gcpsm): [PathTemplate], [Router], [Bubble], [ServeMux] and
    the [RequestObjectMapper] middleware, with the properties of their
    specification.

    Conventions of the embedding:
    - a Go [string] is a Rocq [string] (a sequence of bytes);
    - a Go [int] that scores is a [Z], one that indexes a slice is a [nat];
    - a [map[string]string] is a [gmap string string]; the [nil] map and the
      empty map are both [∅] (the code only reads and ranges over them);
    - a run-time panic (index out of range, reflect misuse) is [None] in the
      [option] monad, or the [Panicked] outcome of a middleware;
    - a [*RouteDefinition] is the position of the entry in [Router.handlers]:
      every registration allocates a fresh entry, so the position is the
      pointer's identity. *)

From Stdlib Require Import ZArith Lia Ascii String.
From stdpp Require Import base tactics option list strings gmap.

Set Warnings "-register-all".

Local Open Scope string_scope.
Local Open Scope Z_scope.

(** ** The pieces of Go's standard library that the router calls *)

Module GoStrings.

(** [strings.Split(s, sep)] for a one-byte separator: never empty, one more
    element than there are separators. *)
Fixpoint SplitOn (sep : ascii) (s : string) : list string :=
  match s with
  | EmptyString => [EmptyString]
  | String c rest =>
      if Ascii.eqb c sep then EmptyString :: SplitOn sep rest
      else match SplitOn sep rest with
           | tok :: toks => String c tok :: toks
           | [] => [String c EmptyString]
           end
  end.

(** [strings.Split(s, "/")]. *)
Definition Split (s : string) : list string := SplitOn "/"%char s.

(** [strings.HasPrefix(s, prefix)]. *)
Definition HasPrefix (s prefix : string) : bool := String.prefix prefix s.

(** [strings.Index(s, "{")]: the position of the first brace, or [-1]. *)
Fixpoint Index (s : string) : Z :=
  match s with
  | EmptyString => -1
  | String c rest =>
      if Ascii.eqb c "{"%char then 0
      else let i := Index rest in if i =? -1 then -1 else i + 1
  end.

(** [s[:n]]. *)
Definition slice_to (s : string) (n : Z) : string :=
  String.substring 0 (Z.to_nat n) s.

(** [s[1:len(s)-1]]; slicing a string shorter than two bytes panics. *)
Definition slice_inner (s : string) : option string :=
  if (String.length s <? 2)%nat then None
  else Some (String.substring 1 (String.length s - 2) s).

Definition ishex (c : ascii) : bool :=
  let n := nat_of_ascii c in
  ((48 <=? n) && (n <=? 57) || (97 <=? n) && (n <=? 102)
   || (65 <=? n) && (n <=? 70))%nat.

Definition unhex (c : ascii) : nat :=
  let n := nat_of_ascii c in
  (if (48 <=? n) && (n <=? 57) then n - 48
   else if (97 <=? n) && (n <=? 102) then n - 97 + 10
   else if (65 <=? n) && (n <=? 70) then n - 65 + 10
   else 0)%nat.

(** [url.QueryUnescape]: [%XX] becomes the byte [XX], [+] becomes a space;
    a [%] that is not followed by two hexadecimal digits is an error
    ([None]). *)
Fixpoint QueryUnescape (s : string) : option string :=
  match s with
  | EmptyString => Some EmptyString
  | String c rest =>
      if Ascii.eqb c "%"%char then
        match rest with
        | String a (String b rest') =>
            if ishex a && ishex b then
              String (ascii_of_nat (unhex a * 16 + unhex b)) <$> QueryUnescape rest'
            else None
        | _ => None
        end
      else if Ascii.eqb c "+"%char then String " "%char <$> QueryUnescape rest
      else String c <$> QueryUnescape rest
  end.

(** [regexp.MustCompile("^\\{(.+)\\}$").MatchString]: an opening brace, at
    least one byte other than a line feed, a closing brace. *)
Definition no_newline (s : string) : bool :=
  forallb (fun c => negb (Ascii.eqb c "010"%char)) (list_ascii_of_string s).

Definition reMatchString (s : string) : bool :=
  match s with
  | String c rest =>
      Ascii.eqb c "{"%char
      && (3 <=? String.length s)%nat
      && match String.get (String.length s - 1) s with
         | Some d => Ascii.eqb d "}"%char
         | None => false
         end
      && no_newline (String.substring 1 (String.length s - 2) s)
  | EmptyString => false
  end.

(** [re.FindStringSubmatch(param)[1]] on a string that matches. *)
Definition reSubmatch (s : string) : string :=
  String.substring 1 (String.length s - 2) s.

End GoStrings.
Import GoStrings.

(** ** router.go: match rates *)

Definition noMethodMatch : Z := 0.
Definition starMethodMatch : Z := 1.
Definition overloadMethodMatch : Z := 2.
Definition exactMethodMatch : Z := 3.

Definition noPathMatch : Z := 0.
Definition starPathMatch : Z := 1.
Definition exactPathMatch : Z := 2.

(** ** router.go: PathTemplate *)

Record PathTemplate : Type := mkPathTemplate {
  pt_PathTemplate : string;
  httpHandlePath : string;
  isVariables : list bool;
  splittedPathTemplate : list string;
  PathParameters : list string
}.

(** [ParsePathTemplate]. *)
Definition ParsePathTemplate (pathTmpl : string) : PathTemplate :=
  let vIndex := Index pathTmpl in
  let splitted := Split pathTmpl in
  {| pt_PathTemplate := pathTmpl;
     httpHandlePath := if vIndex =? -1 then pathTmpl else slice_to pathTmpl vIndex;
     isVariables := reMatchString <$> splitted;
     splittedPathTemplate := splitted;
     PathParameters := reSubmatch <$> filter (fun s => reMatchString s = true) splitted |}.

(** The segment loop of [PathTemplate.Match]: [idx] is the loop index,
    [tokens] what is left of [pt.splittedPathTemplate], [params] the map
    built so far. *)
Fixpoint matchLoop (isVars : list bool) (requestPathSplitted : list string)
    (idx : nat) (tokens : list string) (params : gmap string string)
    : option (bool * gmap string string) :=
  match tokens with
  | [] => Some (true, params)
  | s :: rest =>
      reqPart ← requestPathSplitted !! idx;
      isVar ← isVars !! idx;
      if isVar : bool then
        if decide (reqPart = "") then Some (false, ∅)
        else
          let v := default reqPart (QueryUnescape reqPart) in
          key ← slice_inner s;
          matchLoop isVars requestPathSplitted (S idx) rest (<[key := v]> params)
      else if decide (s ≠ reqPart) then Some (false, ∅)
      else matchLoop isVars requestPathSplitted (S idx) rest params
  end.

(** [PathTemplate.Match]. *)
Definition Match (pt : PathTemplate) (requestPath : string)
    : option (bool * gmap string string) :=
  if bool_decide (pt_PathTemplate pt = httpHandlePath pt)
     && HasPrefix requestPath (httpHandlePath pt)
  then Some (true, ∅)
  else
    let requestPathSplitted := Split requestPath in
    let requiredLen := length (splittedPathTemplate pt) in
    let requestLen := length requestPathSplitted in
    if (requiredLen <? requestLen)%nat then
      matchLoop (isVariables pt) (take requiredLen requestPathSplitted) 0
        (splittedPathTemplate pt) ∅
    else if negb (requiredLen =? requestLen)%nat then Some (false, ∅)
    else matchLoop (isVariables pt) requestPathSplitted 0 (splittedPathTemplate pt) ∅.

(** ** The fragment of [reflect] that the dispatcher uses *)

Inductive Kind : Type :=
  | KBool | KInt | KUint | KFloat | KString
  | KPtr | KStruct | KSlice | KInterface | KFunc | KMap.

#[global] Instance Kind_eq_dec : EqDecision Kind.
Proof. solve_decision. Defined.

(** [reflect.StructField]: the name, the value of the [json] tag and the
    embedding flag. *)
Record StructField : Type := mkStructField {
  sf_Name : string;
  sf_Tag : string;
  sf_Anonymous : bool
}.

(** [reflect.Type]. [TNamed] stands for the types whose structure the
    dispatcher never inspects (interfaces, functions, maps: [*http.Request]
    is [TPtr (TStruct ...)], [http.ResponseWriter] is [TNamed _ KInterface]). *)
Inductive rtype : Type :=
  | TScalar (k : Kind)
  | TPtr (elem : rtype)
  | TSlice (elem : rtype)
  | TStruct (name : string) (fields : list (StructField * rtype))
  | TNamed (name : string) (k : Kind).

Definition rtype_Kind (t : rtype) : Kind :=
  match t with
  | TScalar k => k
  | TPtr _ => KPtr
  | TSlice _ => KSlice
  | TStruct _ _ => KStruct
  | TNamed _ k => k
  end.

(** [Type.Elem()], which panics on a type that has no element type. *)
Definition rtype_Elem (t : rtype) : option rtype :=
  match t with
  | TPtr e | TSlice e => Some e
  | _ => None
  end.

(** The data a [reflect.Value] holds. A scalar keeps its Go literal. *)
Inductive rvalue : Type :=
  | VScalar (k : Kind) (lit : string)
  | VPtr (elem : rtype) (target : option rvalue)
  | VSlice (elem : rtype) (elems : list rvalue)
  | VStruct (name : string) (fields : list (StructField * rvalue))
  | VNamed (name : string) (k : Kind) (handle : string).

(** [Value.Type()]. *)
Fixpoint rvalue_Type (v : rvalue) : rtype :=
  match v with
  | VScalar k _ => TScalar k
  | VPtr e _ => TPtr e
  | VSlice e _ => TSlice e
  | VStruct n fs => TStruct n (map (fun fv => (fv.1, rvalue_Type fv.2)) fs)
  | VNamed n k _ => TNamed n k
  end.

(** The zero value of a type, as [reflect.New(t).Elem()] holds it. *)
Fixpoint rtype_Zero (t : rtype) : rvalue :=
  match t with
  | TScalar k => VScalar k ""
  | TPtr e => VPtr e None
  | TSlice e => VSlice e []
  | TStruct n fs => VStruct n (map (fun ft => (ft.1, rtype_Zero ft.2)) fs)
  | TNamed n k => VNamed n k ""
  end.

(** [reflect.New(t)]: a pointer to a fresh zero value. *)
Definition reflect_New (t : rtype) : rvalue := VPtr t (Some (rtype_Zero t)).

(** A [reflect.Value]; [None] is the zero Value, for which [IsValid()] is
    false. *)
Abbreviation Value := (option rvalue).

Definition IsValid (v : Value) : bool :=
  match v with Some _ => true | None => false end.

(** ** handler containers *)

(** What [reflect.ValueOf(h)] sees of a function: its parameter types
    ([Type().In(i)], [Type().NumIn()]) and [Call], which is [None] when the
    function panics. *)
Record FuncValue : Type := mkFuncValue {
  fn_In : list rtype;
  fn_Call : list rvalue → option (list rvalue)
}.

(** The [interface{}] that [HandlerContainer.Handler()] returns. *)
Inductive HandlerValue : Type :=
  | IsFunc (f : FuncValue)
  | NotFunc (k : Kind).

(** [HandlerContainer]; its embedded ucon [Context] (a key/value store for
    plugins) plays no part in dispatch and is left out. *)
Record HandlerContainer : Type := mkHandlerContainer {
  Handler : HandlerValue
}.

(** ** router.go: RouteDefinition, Router and the request *)

Record RouteDefinition : Type := mkRouteDefinition {
  rd_Method : string;
  rd_PathTemplate : PathTemplate;
  rd_HandlerContainer : HandlerContainer
}.

(** The parts of [*http.Request] the dispatcher reads: [r_Path] is
    [URL.Path], [r_EscapedPath] is [URL.EscapedPath()], [r_Query] is
    [URL.Query()] in the order the [range] visits it, [r_ContentType] is
    [Header.Get("Content-Type")], and [r_Body] is [None] for a nil [Body]
    and otherwise what [ioutil.ReadAll] returns (the bytes and the error). *)
Record Request : Type := mkRequest {
  r_Method : string;
  r_Path : string;
  r_EscapedPath : string;
  r_Query : list (string * list string);
  r_ContentType : string;
  r_Body : option (string * option string)
}.

Record Router : Type := mkRouter {
  handlers : list RouteDefinition
}.

(** [Router.addRoute]. *)
Definition addRoute (ro : Router) (rd : RouteDefinition) : Router :=
  {| handlers := handlers ro ++ [rd] |}.

(** The closure [methodMatchRate] of [pickupBestRouteDefinition]. *)
Definition methodMatchRate (r : Request) (rd : RouteDefinition) : Z :=
  if decide (rd_Method rd = "*") then starMethodMatch
  else if decide (rd_Method rd = "GET" ∧ r_Method r = "HEAD") then overloadMethodMatch
  else if decide (rd_Method rd = r_Method r) then exactMethodMatch
  else noMethodMatch.

(** The rating loop of the closure [pathMatchRate]. *)
Fixpoint rateLoop (isVars : list bool) (reqPathTokens : list string)
    (i : nat) (tokens : list string) (rate : Z) : option Z :=
  match tokens with
  | [] => Some rate
  | token :: rest =>
      if (i =? 0)%nat then rateLoop isVars reqPathTokens (S i) rest rate
      else
        isVar ← isVars !! i;
        if isVar : bool then
          rateLoop isVars reqPathTokens (S i) rest (rate + exactPathMatch)
        else if decide (token = "") then
          rateLoop isVars reqPathTokens (S i) rest (rate + starPathMatch)
        else
          reqTok ← reqPathTokens !! i;
          if decide (token = reqTok) then
            rateLoop isVars reqPathTokens (S i) rest (rate + exactPathMatch)
          else rateLoop isVars reqPathTokens (S i) rest rate
  end.

(** The closure [pathMatchRate] of [pickupBestRouteDefinition]. *)
Definition pathMatchRate (r : Request) (rd : RouteDefinition) : option Z :=
  m ← Match (rd_PathTemplate rd) (r_Path r);
  if negb m.1 then Some noPathMatch
  else
    let tempPathTokens := splittedPathTemplate (rd_PathTemplate rd) in
    let reqPathTokens := Split (r_Path r) in
    if (length reqPathTokens <? length tempPathTokens)%nat then Some noPathMatch
    else rateLoop (isVariables (rd_PathTemplate rd)) reqPathTokens 0 tempPathTokens 0.

(** The local variables of the selection loop. *)
Record Best : Type := mkBest {
  bestRoute : option nat;
  bestMethodMatchRate : Z;
  bestPathMatchRate : Z
}.

Definition noBest : Best :=
  {| bestRoute := None; bestMethodMatchRate := 0; bestPathMatchRate := 0 |}.

(** One iteration of the selection loop on the entry at position [idx]. *)
Definition pickupStep (r : Request) (idx : nat) (rd : RouteDefinition) (st : Best)
    : option Best :=
  let mRate := methodMatchRate r rd in
  if mRate =? noMethodMatch then Some st
  else if mRate <? bestMethodMatchRate st then Some st
  else
    pRate ← pathMatchRate r rd;
    if pRate =? noPathMatch then Some st
    else if pRate <? bestPathMatchRate st then Some st
    else if (bestMethodMatchRate st =? mRate) && (bestPathMatchRate st =? pRate)
    then Some st
    else Some {| bestRoute := Some idx;
                 bestMethodMatchRate := mRate;
                 bestPathMatchRate := pRate |}.

Fixpoint pickupLoop (r : Request) (idx : nat) (rds : list RouteDefinition)
    (st : Best) : option Best :=
  match rds with
  | [] => Some st
  | rd :: rest => st' ← pickupStep r idx rd st; pickupLoop r (S idx) rest st'
  end.

(** [Router.pickupBestRouteDefinition]: the position of the chosen entry,
    [Some None] for the nil route. *)
Definition pickupBestRouteDefinition (ro : Router) (r : Request)
    : option (option nat) :=
  bestRoute <$> pickupLoop r 0 (handlers ro) noBest.

(** ** bubble.go: Bubble *)

(** The error values of the package. [httpError] is the error type that
    [newBadRequestf] builds; [errorString] stands for any other error. *)
Inductive error : Type :=
  | ErrInvalidRequestHandler
  | ErrInvalidArgumentLength
  | ErrInvalidArgumentValue
  | ErrInvalidPathParameterType
  | ErrPathParameterFieldMissing
  | httpError (Code : Z) (Message : string)
  | errorString (msg : string).

Definition newBadRequestf (msg : string) : error := httpError 400 msg.

(** What [b.Context.Value(PathParameterKey)] holds when it is not nil. *)
Inductive ContextValue : Type :=
  | PathParams (params : gmap string string)
  | NotPathParams.

(** Ghost events: which middleware [Next] has entered, and the calls of the
    request handler. They record the run; no code reads them. *)
Inductive Event : Type :=
  | EvMiddleware (qi : nat)
  | EvHandler (args : list rvalue).

(** [Bubble]. [b_Context] is [Context.Value(PathParameterKey)]; the
    response writer [W] is a handle no property below reads and is left out;
    [mux] is passed to [Next] as the list of middlewares; [trace] is the
    ghost record of the run. *)
Record Bubble : Type := mkBubble {
  R : Request;
  b_Context : option ContextValue;
  RequestHandler : HandlerContainer;
  Debug : bool;
  Handled : bool;
  ArgumentTypes : list rtype;
  Arguments : list Value;
  Returns : list rvalue;
  queueIndex : nat;
  trace : list Event
}.

(** How a call of a middleware or of [Next] ends: it returns an [error]
    ([None] is nil) or it panics. *)
Inductive Outcome : Type :=
  | Returned (err : option error)
  | Panicked.

(** A [MiddlewareFunc] is arbitrary Go code over a [*Bubble]. Its body is a
    tree of the things such code can do to the bubble: read it, assign to
    its exported fields, call [b.Next()] and go on with the error it
    returned, return, panic. *)
Inductive MiddlewareFunc : Type :=
  | Return (err : option error)
  | Panic
  | CallNext (k : option error → MiddlewareFunc)
  | Inspect (k : Bubble → MiddlewareFunc)
  | Update (f : Bubble → Bubble) (k : MiddlewareFunc).

(** An assignment by a middleware: [queueIndex] is unexported (and the
    trace is ghost), so they keep their values. *)
Definition update_exported (f : Bubble → Bubble) (b : Bubble) : Bubble :=
  let b' := f b in
  {| R := R b'; b_Context := b_Context b'; RequestHandler := RequestHandler b';
     Debug := Debug b'; Handled := Handled b';
     ArgumentTypes := ArgumentTypes b'; Arguments := Arguments b';
     Returns := Returns b';
     queueIndex := queueIndex b; trace := trace b |}.

(** Running the body of a middleware on the bubble, [next] being what
    [b.Next()] does. A panic below unwinds through the middleware. *)
Fixpoint runMiddleware (next : Bubble → option (Bubble * Outcome))
    (m : MiddlewareFunc) (b : Bubble) : option (Bubble * Outcome) :=
  match m with
  | Return err => Some (b, Returned err)
  | Panic => Some (b, Panicked)
  | CallNext k =>
      res ← next b;
      match res.2 with
      | Returned err => runMiddleware next (k err) res.1
      | Panicked => Some (res.1, Panicked)
      end
  | Inspect k => runMiddleware next (k b) b
  | Update f k => runMiddleware next k (update_exported f b)
  end.

(** [qi := b.queueIndex; b.queueIndex++] and the ghost event. *)
Definition enter (b : Bubble) : Bubble :=
  {| R := R b; b_Context := b_Context b; RequestHandler := RequestHandler b;
     Debug := Debug b; Handled := Handled b;
     ArgumentTypes := ArgumentTypes b; Arguments := Arguments b;
     Returns := Returns b;
     queueIndex := S (queueIndex b);
     trace := trace b ++ [EvMiddleware (queueIndex b)] |}.

(** The ghost event of [hv.Call(b.Arguments)]. *)
Definition called (b : Bubble) (args : list rvalue) : Bubble :=
  {| R := R b; b_Context := b_Context b; RequestHandler := RequestHandler b;
     Debug := Debug b; Handled := Handled b;
     ArgumentTypes := ArgumentTypes b; Arguments := Arguments b;
     Returns := Returns b;
     queueIndex := queueIndex b;
     trace := trace b ++ [EvHandler args] |}.

(** [b.Returns = ...; b.Handled = true]. *)
Definition finished (b : Bubble) (rets : list rvalue) : Bubble :=
  {| R := R b; b_Context := b_Context b; RequestHandler := RequestHandler b;
     Debug := Debug b; Handled := true;
     ArgumentTypes := ArgumentTypes b; Arguments := Arguments b;
     Returns := rets;
     queueIndex := queueIndex b; trace := trace b |}.

(** [b.Arguments[idx] = v]. *)
Definition set_Argument (idx : nat) (v : rvalue) (b : Bubble) : Bubble :=
  {| R := R b; b_Context := b_Context b; RequestHandler := RequestHandler b;
     Debug := Debug b; Handled := Handled b;
     ArgumentTypes := ArgumentTypes b;
     Arguments := <[idx := Some v]> (Arguments b);
     Returns := Returns b;
     queueIndex := queueIndex b; trace := trace b |}.

Section bubble.

(** [reflect.Type.AssignableTo]: Go's assignability, which depends on
    method sets the model of types does not carry. *)
Variable AssignableTo : rtype → rtype → bool.

(** The argument loop of [Bubble.do]: [ins] is [hv.Type().In], [idx] the
    loop index, [args] what is left of [b.Arguments]. *)
Fixpoint checkArguments (ins : list rtype) (idx : nat) (args : list Value) : Outcome :=
  match args with
  | [] => Returned None
  | arg :: rest =>
      match arg with
      | None => Returned (Some ErrInvalidArgumentValue)
      | Some v =>
          match ins !! idx with
          | None => Panicked
          | Some t =>
              if AssignableTo (rvalue_Type v) t then checkArguments ins (S idx) rest
              else Returned (Some ErrInvalidArgumentValue)
          end
      end
  end.

(** [Bubble.do]. The two [fmt.Printf] diagnostics are not modelled. *)
Definition Bubble_do (b : Bubble) : Bubble * Outcome :=
  if negb (length (Arguments b) =? length (ArgumentTypes b))%nat then
    (b, Returned (Some ErrInvalidArgumentLength))
  else
    match Handler (RequestHandler b) with
    | NotFunc _ => (b, Panicked)
    | IsFunc hv =>
        if negb (length (Arguments b) =? length (fn_In hv))%nat then
          (b, Returned (Some ErrInvalidArgumentLength))
        else
          match checkArguments (fn_In hv) 0 (Arguments b) with
          | Returned None =>
              let args := omap id (Arguments b) in
              match fn_Call hv args with
              | Some rets => (finished (called b args) rets, Returned None)
              | None => (called b args, Panicked)
              end
          | failure => (b, failure)
          end
    end.

(** [Bubble.Next], with [fuel] bounding the depth of nested [Next] calls;
    [None] only when the fuel runs out. *)
Fixpoint Bubble_NextFuel (middlewares : list MiddlewareFunc) (fuel : nat)
    (b : Bubble) : option (Bubble * Outcome) :=
  if (queueIndex b <? length middlewares)%nat then
    match fuel with
    | O => None
    | S fuel' =>
        m ← middlewares !! queueIndex b;
        runMiddleware (Bubble_NextFuel middlewares fuel') m (enter b)
    end
  else Some (Bubble_do b).

(** [Bubble.Next]: every call below the cursor advances it, so the
    middlewares that are left bound the depth. *)
Definition Bubble_Next (middlewares : list MiddlewareFunc) (b : Bubble)
    : option (Bubble * Outcome) :=
  Bubble_NextFuel middlewares (length middlewares - queueIndex b) b.

End bubble.

(** [Bubble.init] after [ServeMux.newBubble] has set the request fields:
    one type and one unresolved slot per parameter of the handler.
    [hv.Type().NumIn()] panics when the handler is not a function. *)
Definition newBubble (debug : bool) (c : option ContextValue) (r : Request)
    (rd : RouteDefinition) : option Bubble :=
  match Handler (rd_HandlerContainer rd) with
  | NotFunc _ => None
  | IsFunc hv =>
      Some {| R := r; b_Context := c; RequestHandler := rd_HandlerContainer rd;
              Debug := debug; Handled := false;
              ArgumentTypes := fn_In hv;
              Arguments := replicate (length (fn_In hv)) None;
              Returns := [];
              queueIndex := 0; trace := [] |}
  end.

(** ** utils.go: field lookup by key *)

(** [strings.Split(string(jsonTag), ",")[0]]. *)
Definition TagJSON_Name (tag : string) : string :=
  default "" (head (SplitOn ","%char tag)).

(** [TagJSON.Ignored]. *)
Definition TagJSON_Ignored (tag : string) : bool :=
  bool_decide (TagJSON_Name tag = "-").

(** [structFieldToKey]. *)
Definition structFieldToKey (sf : StructField) : string :=
  let v := TagJSON_Name (sf_Tag sf) in
  if decide (v ≠ "") then v else sf_Name sf.

(** What a mapper returns: the target after its assignments, the [found]
    flag and the error; [None] is a panic. *)
Abbreviation Mapped := (option (rvalue * (bool * option error))).

Section mappers.

(** The conversion of a string into a field that the key has selected: the
    field's own [StringParser] when it has one, [SetValueFromString] (over
    [strconv]) otherwise. It yields the field as assigned and the error;
    no property below depends on what it stores. *)
Variable setFromString : rvalue → string → option (rvalue * option error).

(** The field loop of [valueStringMapper] over the fields that are left,
    [rec] being [valueStringMapper] itself on an embedded field. *)
Definition mapperFieldLoop (rec : rvalue → Mapped) (key value : string)
    : list (StructField * rvalue)
      → option (list (StructField * rvalue) * (bool * option error)) :=
  fix loop (fields : list (StructField * rvalue)) :=
    match fields with
    | [] => Some ([], (false, None))
    | (sf, f) :: rest =>
        let continue (f' : rvalue) :=
          res ← loop rest; Some ((sf, f') :: res.1, res.2) in
        if TagJSON_Ignored (sf_Tag sf) then continue f
        else if sf_Anonymous sf then
          res ← rec f;
          match res.2 with
          | (_, Some err) => Some ((sf, res.1) :: rest, (false, Some err))
          | (true, None) => Some ((sf, res.1) :: rest, (true, None))
          | (false, None) => continue res.1
          end
        else if decide (structFieldToKey sf ≠ key) then continue f
        else
          res ← setFromString f value;
          Some ((sf, res.1) :: rest, (true, res.2))
    end.

(** [valueStringMapper]: a pointer target is dereferenced once, and
    [NumField] panics on anything that is not a struct then. *)
Fixpoint valueStringMapper (key value : string) (target : rvalue) : Mapped :=
  match target with
  | VStruct n fields =>
      res ← mapperFieldLoop (valueStringMapper key value) key value fields;
      Some (VStruct n res.1, res.2)
  | VPtr e (Some (VStruct n fields)) =>
      res ← mapperFieldLoop (valueStringMapper key value) key value fields;
      Some (VPtr e (Some (VStruct n res.1)), res.2)
  | _ => None
  end.

(** [valueStringSliceMapper], which assigns the values of a query key. It
    is used for what it returns only: the properties below hold whatever it
    does to the object. *)
Variable valueStringSliceMapper : string → list string → rvalue → Mapped.

(** [json.Unmarshal(body, req)]: the object as decoded into, and the
    error's message. *)
Variable jsonUnmarshal : string → rvalue → rvalue * option string.

(** The order in which [range] visits a [map[string]string]. *)
Variable rangeOrder : gmap string string → list (string * string).

(** ** middleware.go: RequestObjectMapper *)

(** How a phase of the mapper ends: it goes on with the object, returns an
    error, or panics. *)
Inductive Phase : Type :=
  | Continue (reqV : rvalue)
  | Fail (err : error)
  | Crash.

Definition andThen (p : Phase) (k : rvalue → Phase) : Phase :=
  match p with
  | Continue reqV => k reqV
  | Fail err => Fail err
  | Crash => Crash
  end.

(** [Kind() == reflect.Ptr && Elem().Kind() == reflect.Struct]. *)
Definition isPtrToStruct (t : rtype) : bool :=
  bool_decide (rtype_Kind t = KPtr)
  && match rtype_Elem t with
     | Some e => bool_decide (rtype_Kind e = KStruct)
     | None => false
     end.

(** The slot search: the first unresolved slot whose declared type is a
    pointer to a struct. [b.ArgumentTypes[idx]] panics out of range. *)
Fixpoint findArgument (argumentTypes : list rtype) (idx : nat) (args : list Value)
    : option (option (nat * rtype)) :=
  match args with
  | [] => Some None
  | arg :: rest =>
      if IsValid arg then findArgument argumentTypes (S idx) rest
      else
        argT ← argumentTypes !! idx;
        if isPtrToStruct argT then Some (Some (idx, argT))
        else findArgument argumentTypes (S idx) rest
  end.

(** The loop over the path parameters. The error of [valueStringMapper] is
    dropped, as in the source. *)
Fixpoint pathLoop (params : list (string * string)) (reqV : rvalue) : Phase :=
  match params with
  | [] => Continue reqV
  | (key, value) :: rest =>
      match valueStringMapper key value reqV with
      | None => Crash
      | Some (reqV', (found, _)) =>
          if found then pathLoop rest reqV' else Fail ErrPathParameterFieldMissing
      end
  end.

Definition pathPhase (c : option ContextValue) (reqV : rvalue) : Phase :=
  match c with
  | None => Continue reqV
  | Some NotPathParams => Fail ErrInvalidPathParameterType
  | Some (PathParams params) => pathLoop (rangeOrder params) reqV
  end.

(** The loop over the query. *)
Fixpoint queryPhase (query : list (string * list string)) (reqV : rvalue) : Phase :=
  match query with
  | [] => Continue reqV
  | (key, ss) :: rest =>
      match valueStringSliceMapper key ss reqV with
      | None => Crash
      | Some (reqV', (_, Some err)) => Fail err
      | Some (reqV', (_, None)) => queryPhase rest reqV'
      end
  end.

(** [ioutil.ReadAll(b.R.Body)] when the body is not nil. *)
Definition readBody (r : Request) : string * option string :=
  default ("", None) (r_Body r).

(** The JSON block. *)
Definition jsonPhase (contentType body : string) (reqV : rvalue) : Phase :=
  let ct := SplitOn ";"%char contentType in
  if decide (default "" (head ct) = "application/json") then
    if (String.length body =? 2)%nat then Continue reqV
    else if negb (String.length body =? 0)%nat then
      match jsonUnmarshal body reqV with
      | (_, Some msg) => Fail (newBadRequestf msg)
      | (reqV', None) => Continue reqV'
      end
    else Continue reqV
  else Continue reqV.

(** The body of the mapper between the slot search and the assignment of
    the slot. *)
Definition buildRequestObject (b : Bubble) (argT : rtype) : Phase :=
  match rtype_Elem argT with
  | None => Crash
  | Some elemT =>
      andThen (pathPhase (b_Context b) (reflect_New elemT)) (λ reqV,
      andThen (queryPhase (r_Query (R b)) reqV) (λ reqV,
        match readBody (R b) with
        | (_, Some err) => Fail (errorString err)
        | (body, None) => jsonPhase (r_ContentType (R b)) body reqV
        end))
  end.

(** [RequestObjectMapper]. *)
Definition RequestObjectMapper : MiddlewareFunc :=
  Inspect (λ b,
    match findArgument (ArgumentTypes b) 0 (Arguments b) with
    | None => Panic
    | Some None => CallNext Return
    | Some (Some (argIdx, argT)) =>
        match buildRequestObject b argT with
        | Crash => Panic
        | Fail err => Return (Some err)
        | Continue reqV => Update (set_Argument argIdx reqV) (CallNext Return)
        end
    end).

End mappers.

(** ** ucon.go: ServeMux *)

(** A plugin as [pluginContainer] sees it: a [HandlersScannerPlugin] with
    its [HandlersScannerProcess], or a value with no known capability. *)
Inductive Plugin : Type :=
  | HandlersScanner (process : list RouteDefinition → option error)
  | UnusedPlugin.

Record ServeMux : Type := mkServeMux {
  mux_Debug : bool;
  mux_router : Router;
  mux_middlewares : list MiddlewareFunc;
  mux_plugins : list Plugin
}.

(** [NewServeMux]. *)
Definition NewServeMux : ServeMux :=
  {| mux_Debug := false; mux_router := {| handlers := [] |};
     mux_middlewares := []; mux_plugins := [] |}.

(** [ServeMux.Middleware]. *)
Definition ServeMux_Middleware (m : ServeMux) (f : MiddlewareFunc) : ServeMux :=
  {| mux_Debug := mux_Debug m; mux_router := mux_router m;
     mux_middlewares := mux_middlewares m ++ [f]; mux_plugins := mux_plugins m |}.

(** [ServeMux.Plugin]: [pluginContainer.check] panics on an unused plugin. *)
Definition ServeMux_Plugin (m : ServeMux) (p : Plugin) : option ServeMux :=
  match p with
  | UnusedPlugin => None
  | HandlersScanner _ =>
      Some {| mux_Debug := mux_Debug m; mux_router := mux_router m;
              mux_middlewares := mux_middlewares m;
              mux_plugins := mux_plugins m ++ [p] |}
  end.

(** [ServeMux.Prepare]: every plugin scans the routes; an error or an
    unused plugin panics. *)
Definition Prepare (m : ServeMux) : option unit :=
  foldl (λ acc p,
           _ ← acc;
           match p with
           | HandlersScanner process =>
               match process (handlers (mux_router m)) with
               | Some _ => None
               | None => Some ()
               end
           | UnusedPlugin => None
           end)
        (Some ()) (mux_plugins m).

(** [strings.ToUpper] on the ASCII letters (method names are ASCII). *)
Definition upperByte (c : ascii) : ascii :=
  let n := nat_of_ascii c in
  if ((97 <=? n) && (n <=? 122))%nat then ascii_of_nat (n - 32) else c.

Fixpoint ToUpper (s : string) : string :=
  match s with
  | EmptyString => EmptyString
  | String c rest => String (upperByte c) (ToUpper rest)
  end.

(** [CheckFunction]: panics unless the target is a function. *)
Definition CheckFunction (target : HandlerValue) : option unit :=
  match target with
  | IsFunc _ => Some ()
  | NotFunc _ => None
  end.

(** [ServeMux.Handle]: one route per method of the comma-separated list,
    all with the one parsed template. *)
Definition Handle (m : ServeMux) (method path : string) (hc : HandlerContainer)
    : option ServeMux :=
  _ ← CheckFunction (Handler hc);
  let pathTmpl := ParsePathTemplate path in
  let methods := SplitOn ","%char (ToUpper method) in
  Some {| mux_Debug := mux_Debug m;
          mux_router :=
            foldl (λ ro method,
                     addRoute ro {| rd_Method := method;
                                    rd_PathTemplate := pathTmpl;
                                    rd_HandlerContainer := hc |})
                  (mux_router m) methods;
          mux_middlewares := mux_middlewares m;
          mux_plugins := mux_plugins m |}.

(** What [Router.ServeHTTP] does with a request: the three ways it answers
    by itself, the bubble after a chain that returned nil, or a panic. *)
Inductive Response : Type :=
  | RespNotFound
  | RespInvalidHandlerPicked
  | RespError (err : error) (b : Bubble)
  | RespDone (b : Bubble)
  | RespPanic.

(** [Router.ServeHTTP]. *)
Definition ServeHTTP (AssignableTo : rtype → rtype → bool) (m : ServeMux)
    (r : Request) : Response :=
  match pickupBestRouteDefinition (mux_router m) r with
  | None => RespPanic
  | Some None => RespNotFound
  | Some (Some idx) =>
      match handlers (mux_router m) !! idx with
      | None => RespPanic
      | Some rd =>
          match Match (rd_PathTemplate rd) (r_EscapedPath r) with
          | None => RespPanic
          | Some (false, _) => RespInvalidHandlerPicked
          | Some (true, params) =>
              match newBubble (mux_Debug m) (Some (PathParams params)) r rd with
              | None => RespPanic
              | Some b =>
                  match Bubble_Next AssignableTo (mux_middlewares m) b with
                  | Some (b', Returned None) => RespDone b'
                  | Some (b', Returned (Some err)) => RespError err b'
                  | Some (_, Panicked) | None => RespPanic
                  end
              end
          end
      end
  end.

(** * Properties of the router *)

(** ** Well-formed templates: what [ParsePathTemplate] builds *)

(** The unexported slices of a template have one entry per segment, and a
    segment flagged as a variable is [{name}]. *)
Definition wf_template (pt : PathTemplate) : Prop :=
  isVariables pt = reMatchString <$> splittedPathTemplate pt.

Lemma ParsePathTemplate_wf (pathTmpl : string) :
  wf_template (ParsePathTemplate pathTmpl).
Proof. reflexivity. Qed.

Lemma reMatchString_length (s : string) :
  reMatchString s = true → (3 ≤ String.length s)%nat.
Proof.
  destruct s as [|c rest]; [discriminate|].
  unfold reMatchString. intros H.
  repeat (apply andb_prop in H as [H ?]).
  by apply Nat.leb_le.
Qed.

Lemma slice_inner_variable (s : string) :
  reMatchString s = true → slice_inner s = Some (reSubmatch s).
Proof.
  intros H%reMatchString_length. unfold slice_inner, reSubmatch.
  destruct (Nat.ltb_spec (String.length s) 2); [lia|done].
Qed.

Lemma SplitOn_nonempty (sep : ascii) (s : string) : SplitOn sep s ≠ [].
Proof.
  destruct s as [|c rest]; simpl; [done|].
  destruct (Ascii.eqb c sep); [done|]. by destruct (SplitOn sep rest).
Qed.

(** ** The segment loop *)

Section match_loop.
Context (tokensAll : list string) (isVars : list bool) (req : list string).
Hypothesis HisVars : isVars = reMatchString <$> tokensAll.

(** The loop does not panic when the request has a part for every
    segment that is left. *)
Lemma matchLoop_total (tokens : list string) (idx : nat) params :
  drop idx tokensAll = tokens →
  (length tokensAll ≤ length req)%nat →
  is_Some (matchLoop isVars req idx tokens params).
Proof.
  revert idx params. induction tokens as [|s rest IH]; intros idx params Hd Hlen.
  { by eexists. }
  assert (Hs : tokensAll !! idx = Some s).
  { rewrite <- (Nat.add_0_r idx), <- lookup_drop, Hd. done. }
  assert (Hi : (idx < length tokensAll)%nat) by (by eapply lookup_lt_Some).
  destruct (lookup_lt_is_Some_2 req idx) as [reqPart Hreq]; [lia|].
  assert (Hiv : isVars !! idx = Some (reMatchString s)).
  { by rewrite HisVars, list_lookup_fmap, Hs. }
  simpl. rewrite Hreq. simpl. rewrite Hiv. simpl.
  assert (Hd' : drop (S idx) tokensAll = rest).
  { rewrite <- (Nat.add_1_r idx), <- drop_drop, Hd. done. }
  destruct (reMatchString s) eqn:Hv.
  - destruct (decide (reqPart = "")); [by eexists|].
    rewrite (slice_inner_variable s Hv). simpl. by apply IH.
  - destruct (decide (s ≠ reqPart)); [by eexists|]. by apply IH.
Qed.

(** A failed match returns the nil map. *)
Lemma matchLoop_false (tokens : list string) (idx : nat) params m :
  matchLoop isVars req idx tokens params = Some (false, m) → m = ∅.
Proof.
  revert idx params. induction tokens as [|s rest IH]; intros idx params; simpl.
  { intros [=]. }
  destruct (req !! idx) as [reqPart|]; [simpl|done].
  destruct (isVars !! idx) as [[]|]; simpl; [| |done].
  - destruct (decide (reqPart = "")); [by intros [= <-]|].
    destruct (slice_inner s); simpl; [apply IH|done].
  - destruct (decide (s ≠ reqPart)); [by intros [= <-]|apply IH].
Qed.



End match_loop.

(** The loop reads the request only at the positions of the segments. *)
Lemma matchLoop_ext (isVars : list bool) (req1 req2 : list string)
    (tokens : list string) (idx : nat) params :
  (∀ k, (k < length tokens)%nat → req1 !! (idx + k)%nat = req2 !! (idx + k)%nat) →
  matchLoop isVars req1 idx tokens params = matchLoop isVars req2 idx tokens params.
Proof.
  revert idx params. induction tokens as [|s rest IH]; intros idx params Hagree; [done|].
  assert (H0 : req1 !! idx = req2 !! idx).
  { rewrite <- (Nat.add_0_r idx). apply Hagree. simpl. lia. }
  simpl. rewrite <- H0.
  assert (Hrest : ∀ p, matchLoop isVars req1 (S idx) rest p
                       = matchLoop isVars req2 (S idx) rest p).
  { intros p. apply IH. intros k Hk.
    replace (S idx + k)%nat with (idx + S k)%nat by lia.
    apply Hagree. simpl. lia. }
  destruct (req1 !! idx) as [reqPart|]; [simpl|done].
  destruct (isVars !! idx) as [[]|]; simpl; [| |done].
  - destruct (decide (reqPart = "")); [done|].
    destruct (slice_inner s); simpl; [apply Hrest|done].
  - destruct (decide (s ≠ reqPart)); [done|apply Hrest].
Qed.

(** ** A template with a variable segment never takes the prefix fast path *)

Lemma Index_ge (s : string) : -1 ≤ Index s.
Proof.
  induction s as [|c rest IH]; simpl; [lia|].
  destruct (Ascii.eqb c "{"); [lia|]. destruct (Z.eqb_spec (Index rest) (-1)); lia.
Qed.

Lemma Index_lt (s : string) : Index s < Z.of_nat (String.length s).
Proof.
  induction s as [|c rest IH]; simpl String.length; simpl Index; [lia|].
  destruct (Ascii.eqb c "{"); [lia|]. destruct (Z.eqb_spec (Index rest) (-1)); lia.
Qed.

Lemma Index_none_segments (s : string) :
  Index s = -1 → Forall (λ tok, reMatchString tok = false) (Split s).
Proof.
  unfold Split. induction s as [|c rest IH]; simpl.
  { intros _. by constructor. }
  destruct (Ascii.eqb c "{") eqn:Hc; [done|].
  destruct (Z.eqb_spec (Index rest) (-1)) as [Hrest|]; [intros _|pose proof (Index_ge rest); lia].
  specialize (IH Hrest).
  destruct (Ascii.eqb c "/").
  { by constructor. }
  destruct (SplitOn "/" rest) as [|tok toks].
  { constructor; [|done]. unfold reMatchString. by rewrite Hc. }
  inversion IH; subst. constructor; [|done].
  unfold reMatchString. by rewrite Hc.
Qed.

Lemma substring_0_length (n : nat) (s : string) :
  (n ≤ String.length s)%nat → String.length (String.substring 0 n s) = n.
Proof.
  revert s. induction n as [|n IH]; intros [|c s]; simpl; try done; try lia.
  intros H. f_equal. apply IH. lia.
Qed.

Lemma variable_template_not_static (pathTmpl : string) (i : nat) :
  isVariables (ParsePathTemplate pathTmpl) !! i = Some true →
  pt_PathTemplate (ParsePathTemplate pathTmpl) ≠ httpHandlePath (ParsePathTemplate pathTmpl).
Proof.
  simpl. intros Hv.
  destruct (Z.eqb_spec (Index pathTmpl) (-1)) as [Hnone|Hsome].
  - apply Index_none_segments in Hnone.
    rewrite list_lookup_fmap in Hv.
    destruct (Split pathTmpl !! i) as [s|] eqn:Hs; [|done].
    rewrite Forall_lookup in Hnone. specialize (Hnone _ _ Hs).
    simpl in Hv. congruence.
  - intros Heq. apply (f_equal String.length) in Heq.
    pose proof (Index_ge pathTmpl). pose proof (Index_lt pathTmpl).
    unfold slice_to in Heq. rewrite substring_0_length in Heq; lia.
Qed.

(** The general path of [Match], taken whenever the fast path is not. *)
Definition matchGeneral (pt : PathTemplate) (requestPath : string)
    : option (bool * gmap string string) :=
  let requiredLen := length (splittedPathTemplate pt) in
  if (length (Split requestPath) <? requiredLen)%nat then Some (false, ∅)
  else matchLoop (isVariables pt) (take requiredLen (Split requestPath)) 0
         (splittedPathTemplate pt) ∅.

Lemma Match_general (pt : PathTemplate) (requestPath : string) :
  pt_PathTemplate pt ≠ httpHandlePath pt →
  Match pt requestPath = matchGeneral pt requestPath.
Proof.
  intros Hne. unfold Match, matchGeneral.
  rewrite bool_decide_eq_false_2 by done. simpl.
  destruct (Nat.ltb_spec (length (splittedPathTemplate pt)) (length (Split requestPath)));
    destruct (Nat.ltb_spec (length (Split requestPath)) (length (splittedPathTemplate pt)));
    try lia; try done.
  - destruct (Nat.eqb_spec (length (splittedPathTemplate pt)) (length (Split requestPath)));
      [lia|done].
  - destruct (Nat.eqb_spec (length (splittedPathTemplate pt)) (length (Split requestPath)));
      [|lia].
    simpl. by rewrite take_ge by lia.
Qed.

Lemma matchGeneral_total (pt : PathTemplate) (requestPath : string) :
  wf_template pt → is_Some (matchGeneral pt requestPath).
Proof.
  intros Hwf. unfold matchGeneral.
  destruct (Nat.ltb_spec (length (Split requestPath)) (length (splittedPathTemplate pt)));
    [by eexists|].
  eapply matchLoop_total; [exact Hwf|done|]. rewrite length_take. lia.
Qed.

(** [Match] never panics on a parsed template. *)
Lemma Match_total (pt : PathTemplate) (requestPath : string) :
  wf_template pt → is_Some (Match pt requestPath).
Proof.
  intros Hwf. unfold Match.
  destruct (bool_decide _ && HasPrefix _ _); [by eexists|].
  destruct (Nat.ltb_spec (length (splittedPathTemplate pt)) (length (Split requestPath))).
  { eapply matchLoop_total; [exact Hwf|done|]. rewrite length_take. lia. }
  destruct (Nat.eqb_spec (length (splittedPathTemplate pt)) (length (Split requestPath)));
    simpl; [|by eexists].
  eapply matchLoop_total; [exact Hwf|done|lia].
Qed.

(** ** PathTemplate.Match on templates with variable segments *)




(** ** An empty literal segment in the segment loop *)

(** In the general path a literal segment, the empty one included, only
    matches a request segment equal to it. *)
Lemma matchLoop_literal_mismatch (tokensAll : list string) (isVars : list bool)
    (req : list string) (tokens : list string) (idx k : nat) params s reqPart :
  isVars = reMatchString <$> tokensAll →
  drop idx tokensAll = tokens →
  (length tokensAll ≤ length req)%nat →
  (idx ≤ k)%nat →
  tokensAll !! k = Some s →
  reMatchString s = false →
  req !! k = Some reqPart →
  s ≠ reqPart →
  matchLoop isVars req idx tokens params = Some (false, ∅).
Proof.
  intros HisVars. revert idx params.
  induction tokens as [|t rest IH]; intros idx params Hd Hlen Hk Hs Hv Hr Hne.
  { apply lookup_lt_Some in Hs.
    assert (length (drop idx tokensAll) = 0%nat) as Hl by (by rewrite Hd).
    rewrite length_drop in Hl. lia. }
  assert (Ht : tokensAll !! idx = Some t).
  { rewrite <- (Nat.add_0_r idx), <- lookup_drop, Hd. done. }
  assert (Hi : (idx < length tokensAll)%nat) by (by eapply lookup_lt_Some).
  destruct (lookup_lt_is_Some_2 req idx) as [rp Hreq]; [lia|].
  assert (Hd' : drop (S idx) tokensAll = rest).
  { rewrite <- (Nat.add_1_r idx), <- drop_drop, Hd. done. }
  assert (Hiv : isVars !! idx = Some (reMatchString t)).
  { by rewrite HisVars, list_lookup_fmap, Ht. }
  simpl. rewrite Hreq. simpl. rewrite Hiv. simpl.
  destruct (decide (idx = k)) as [->|Hneq].
  - rewrite Hs in Ht. injection Ht as <-. rewrite Hr in Hreq. injection Hreq as <-.
    rewrite Hv. by rewrite decide_True.
  - destruct (reMatchString t) eqn:Hvt.
    + destruct (decide (rp = "")); [done|].
      rewrite (slice_inner_variable t Hvt). simpl.
      eapply IH; [done|done|lia|done..].
    + destruct (decide (t ≠ rp)); [done|].
      eapply IH; [done|done|lia|done..].
Qed.

(** C5 (what the code does instead). On a parsed template with a variable
    segment, an empty literal segment is no wildcard: facing a non-empty
    request segment it fails the match. *)
Theorem C5_empty_literal_is_exact (pathTmpl requestPath : string) (i : nat)
    (reqPart : string) :
  let pt := ParsePathTemplate pathTmpl in
  (∃ v, isVariables pt !! v = Some true) →
  splittedPathTemplate pt !! i = Some "" →
  Split requestPath !! i = Some reqPart →
  reqPart ≠ "" →
  Match pt requestPath = Some (false, ∅).
Proof.
  intros pt [v Hv] Hs Hr Hne.
  rewrite Match_general by (by eapply variable_template_not_static).
  unfold matchGeneral.
  destruct (Nat.ltb_spec (length (Split requestPath)) (length (splittedPathTemplate pt)));
    [done|].
  assert (i < length (splittedPathTemplate pt))%nat by (by eapply lookup_lt_Some).
  eapply matchLoop_literal_mismatch
    with (tokensAll := splittedPathTemplate pt) (k := i) (s := "") (reqPart := reqPart);
    [exact (ParsePathTemplate_wf pathTmpl)|done|rewrite length_take; lia|lia|done|done| |done].
  by rewrite lookup_take_lt.
Qed.

Lemma C5_empty_literal_is_exact_witness :
  splittedPathTemplate (ParsePathTemplate "/a/{bar}/") !! 3%nat = Some ""
  ∧ Split "/a/x/y" !! 3%nat = Some "y"
  ∧ Match (ParsePathTemplate "/a/{bar}/") "/a/x/y" = Some (false, ∅).
Proof.
  split_and!; [reflexivity..|].
  apply (C5_empty_literal_is_exact "/a/{bar}/" "/a/x/y" 3 "y");
    [by exists 2%nat|reflexivity|reflexivity|discriminate].
Defined.

(** ** The rating loop *)

Lemma rateLoop_total (tokensAll : list string) (isVars : list bool)
    (req : list string) (tokens : list string) (i : nat) (rate : Z) :
  isVars = reMatchString <$> tokensAll →
  drop i tokensAll = tokens →
  (length tokensAll ≤ length req)%nat →
  is_Some (rateLoop isVars req i tokens rate).
Proof.
  intros HisVars. revert i rate.
  induction tokens as [|t rest IH]; intros i rate Hd Hlen; [by eexists|].
  assert (Ht : tokensAll !! i = Some t).
  { rewrite <- (Nat.add_0_r i), <- lookup_drop, Hd. done. }
  assert (Hi : (i < length tokensAll)%nat) by (by eapply lookup_lt_Some).
  destruct (lookup_lt_is_Some_2 req i) as [rp Hreq]; [lia|].
  assert (Hd' : drop (S i) tokensAll = rest).
  { rewrite <- (Nat.add_1_r i), <- drop_drop, Hd. done. }
  assert (Hiv : isVars !! i = Some (reMatchString t)).
  { by rewrite HisVars, list_lookup_fmap, Ht. }
  simpl. destruct (i =? 0)%nat; [by apply IH|].
  rewrite Hiv. simpl.
  destruct (reMatchString t); [by apply IH|].
  destruct (decide (t = "")); [by apply IH|].
  rewrite Hreq. simpl. destruct (decide (t = rp)); by apply IH.
Qed.

(** [pathMatchRate] never panics on a parsed template. *)
Lemma pathMatchRate_total (r : Request) (rd : RouteDefinition) :
  wf_template (rd_PathTemplate rd) → is_Some (pathMatchRate r rd).
Proof.
  intros Hwf. unfold pathMatchRate.
  destruct (Match_total _ (r_Path r) Hwf) as [m ->]. simpl.
  destruct (negb m.1); [by eexists|].
  destruct (Nat.ltb_spec (length (Split (r_Path r)))
              (length (splittedPathTemplate (rd_PathTemplate rd)))); [by eexists|].
  by eapply rateLoop_total.
Qed.

(** ** The selection loop *)

Definition wf_router (ro : Router) : Prop :=
  Forall (λ rd, wf_template (rd_PathTemplate rd)) (handlers ro).

(** An entry with rates [m] and [p] cannot replace the best of [st]. *)
Definition blocked (st : Best) (m p : Z) : Prop :=
  m = noMethodMatch ∨ p = noPathMatch
  ∨ m < bestMethodMatchRate st ∨ p < bestPathMatchRate st
  ∨ (bestMethodMatchRate st = m ∧ bestPathMatchRate st = p).

(** The state grows: both recorded rates only go up. *)
Definition grows (st st' : Best) : Prop :=
  bestMethodMatchRate st ≤ bestMethodMatchRate st'
  ∧ bestPathMatchRate st ≤ bestPathMatchRate st'.

Section selection.
Context (r : Request).

(** An iteration either leaves the state alone or records its own entry
    with its own rates. *)
Lemma pickupStep_cases idx rd st st' :
  pickupStep r idx rd st = Some st' →
  st' = st
  ∨ ∃ p, pathMatchRate r rd = Some p
         ∧ st' = {| bestRoute := Some idx;
                    bestMethodMatchRate := methodMatchRate r rd;
                    bestPathMatchRate := p |}
         ∧ bestMethodMatchRate st ≤ methodMatchRate r rd
         ∧ bestPathMatchRate st ≤ p
         ∧ ¬ blocked st (methodMatchRate r rd) p.
Proof.
  unfold pickupStep, blocked.
  destruct (Z.eqb_spec (methodMatchRate r rd) noMethodMatch); [intros [= <-]; by left|].
  destruct (Z.ltb_spec (methodMatchRate r rd) (bestMethodMatchRate st));
    [intros [= <-]; by left|].
  destruct (pathMatchRate r rd) as [p|]; simpl; [|done].
  destruct (Z.eqb_spec p noPathMatch); [intros [= <-]; by left|].
  destruct (Z.ltb_spec p (bestPathMatchRate st)); [intros [= <-]; by left|].
  destruct (Z.eqb_spec (bestMethodMatchRate st) (methodMatchRate r rd));
    destruct (Z.eqb_spec (bestPathMatchRate st) p); simpl; intros [= <-];
    try (by left); right; exists p; split_and!; try done; try lia.
Qed.

Lemma pickupStep_blocked idx rd st p :
  pathMatchRate r rd = Some p →
  blocked st (methodMatchRate r rd) p →
  pickupStep r idx rd st = Some st.
Proof.
  intros Hp Hb. destruct (pickupStep r idx rd st) as [st'|] eqn:Hstep.
  - destruct (pickupStep_cases _ _ _ _ Hstep) as [->|(p' & Hp' & _ & _ & _ & Hnb)];
      [done|].
    rewrite Hp in Hp'. injection Hp' as <-. done.
  - unfold pickupStep in Hstep. rewrite Hp in Hstep. simpl in Hstep.
    repeat case_match; done.
Qed.

Lemma pickupStep_grows idx rd st st' :
  pickupStep r idx rd st = Some st' → grows st st'.
Proof.
  intros [->|(p & _ & -> & ? & ? & _)]%pickupStep_cases; unfold grows; simpl; lia.
Qed.

(** Once its iteration is over, an entry stays blocked. *)
Lemma pickupStep_blocks idx rd st st' p :
  pickupStep r idx rd st = Some st' →
  pathMatchRate r rd = Some p →
  blocked st' (methodMatchRate r rd) p.
Proof.
  intros Hstep Hp. unfold blocked.
  destruct (pickupStep_cases _ _ _ _ Hstep) as [->|(p' & Hp' & -> & _)].
  - unfold pickupStep in Hstep. rewrite Hp in Hstep. simpl in Hstep.
    destruct (Z.eqb_spec (methodMatchRate r rd) noMethodMatch); [tauto|].
    destruct (Z.ltb_spec (methodMatchRate r rd) (bestMethodMatchRate st)); [tauto|].
    destruct (Z.eqb_spec p noPathMatch); [tauto|].
    destruct (Z.ltb_spec p (bestPathMatchRate st)); [tauto|].
    destruct (Z.eqb_spec (bestMethodMatchRate st) (methodMatchRate r rd));
      destruct (Z.eqb_spec (bestPathMatchRate st) p); simpl in Hstep;
      try tauto; injection Hstep as Hst; rewrite <- Hst in *; simpl in *; lia.
  - rewrite Hp in Hp'. injection Hp' as <-. simpl. tauto.
Qed.

Lemma blocked_grows st st' m p :
  blocked st m p → grows st st' → blocked st' m p.
Proof. unfold blocked, grows. intros ? [? ?]. lia. Qed.

Lemma pickupLoop_app idx l1 l2 st :
  pickupLoop r idx (l1 ++ l2) st
  = pickupLoop r idx l1 st ≫= pickupLoop r (idx + length l1) l2.
Proof.
  revert idx st. induction l1 as [|rd l1 IH]; intros idx st; simpl.
  { by rewrite Nat.add_0_r. }
  destruct (pickupStep r idx rd st) as [st'|]; simpl; [|done].
  rewrite IH. by replace (S idx + length l1)%nat with (idx + S (length l1))%nat by lia.
Qed.

Lemma pickupLoop_grows idx rds st st' :
  pickupLoop r idx rds st = Some st' → grows st st'.
Proof.
  revert idx st. induction rds as [|rd rds IH]; intros idx st; simpl.
  { intros [= <-]. unfold grows. lia. }
  destruct (pickupStep r idx rd st) as [st1|] eqn:Hstep; simpl; [|done].
  intros Hloop. apply pickupStep_grows in Hstep. apply IH in Hloop.
  unfold grows in *. lia.
Qed.

(** The loop only ever records positions it has visited. *)
Lemma pickupLoop_route idx rds st st' :
  pickupLoop r idx rds st = Some st' →
  bestRoute st' = bestRoute st
  ∨ ∃ k, bestRoute st' = Some k ∧ (idx ≤ k < idx + length rds)%nat.
Proof.
  revert idx st. induction rds as [|rd rds IH]; intros idx st; simpl.
  { intros [= <-]. by left. }
  destruct (pickupStep r idx rd st) as [st1|] eqn:Hstep; simpl; [|done].
  intros Hloop. apply IH in Hloop as [Hsame|(k & Hk & ?)].
  - rewrite Hsame.
    destruct (pickupStep_cases _ _ _ _ Hstep) as [->|(p & _ & -> & _)]; [by left|].
    right. exists idx. simpl. split; [done|lia].
  - right. exists k. split; [done|lia].
Qed.

Lemma pickupLoop_total idx rds st :
  Forall (λ rd, wf_template (rd_PathTemplate rd)) rds →
  is_Some (pickupLoop r idx rds st).
Proof.
  intros Hwf. revert idx st. induction Hwf as [|rd rds Hrd _ IH]; intros idx st; simpl.
  { by eexists. }
  assert (is_Some (pickupStep r idx rd st)) as [st1 ->]; [|by apply IH].
  unfold pickupStep. destruct (pathMatchRate_total r rd Hrd) as [p ->]. simpl.
  repeat case_match; by eexists.
Qed.

(** What the recorded rates are: those of the recorded entry. *)
Definition rates_of_best (all : list RouteDefinition) (st : Best) : Prop :=
  ∀ k, bestRoute st = Some k →
    ∃ rd, all !! k = Some rd
          ∧ methodMatchRate r rd = bestMethodMatchRate st
          ∧ pathMatchRate r rd = Some (bestPathMatchRate st).

Lemma pickupLoop_rates_of_best all idx rds st st' :
  drop idx all = rds →
  rates_of_best all st →
  pickupLoop r idx rds st = Some st' →
  rates_of_best all st'.
Proof.
  revert idx st. induction rds as [|rd rds IH]; intros idx st Hd Hinv; simpl.
  { by intros [= <-]. }
  destruct (pickupStep r idx rd st) as [st1|] eqn:Hstep; simpl; [|done].
  assert (Hrd : all !! idx = Some rd).
  { rewrite <- (Nat.add_0_r idx), <- lookup_drop, Hd. done. }
  apply IH.
  - rewrite <- (Nat.add_1_r idx), <- drop_drop, Hd. done.
  - destruct (pickupStep_cases _ _ _ _ Hstep) as [->|(p & Hp & -> & _)]; [done|].
    intros k [= <-]. exists rd. simpl. done.
Qed.
End selection.

Section selection_order.
Context (r : Request).

(** An entry that is blocked when the loop reaches it is not the result. *)
Lemma blocked_never_selected rds idx st st' k rd p :
  pickupLoop r idx rds st = Some st' →
  rds !! k = Some rd →
  pathMatchRate r rd = Some p →
  blocked st (methodMatchRate r rd) p →
  bestRoute st ≠ Some (idx + k)%nat →
  bestRoute st' ≠ Some (idx + k)%nat.
Proof.
  revert idx st k. induction rds as [|rd0 rds IH]; intros idx st k; simpl; [done|].
  destruct (pickupStep r idx rd0 st) as [st1|] eqn:Hstep; simpl; [|done].
  intros Hloop Hk Hp Hb Hne. destruct k as [|k]; simpl in Hk.
  - injection Hk as ->. rewrite (pickupStep_blocked _ _ _ _ _ Hp Hb) in Hstep.
    injection Hstep as <-.
    destruct (pickupLoop_route _ _ _ _ _ Hloop) as [->|(k' & -> & ?)]; [done|].
    intros [=]. lia.
  - replace (idx + S k)%nat with (S idx + k)%nat in * by lia.
    eapply IH; [exact Hloop|exact Hk|exact Hp| |].
    + eapply blocked_grows; [exact Hb|by eapply pickupStep_grows].
    + destruct (pickupStep_cases _ _ _ _ _ Hstep) as [->|(? & _ & -> & _)]; [done|].
      simpl. intros [=]. lia.
Qed.

(** Of two entries with the same rates the later one is not the result. *)
Lemma later_tie_never_selected rds idx st st' i j rdi rdj p :
  pickupLoop r idx rds st = Some st' →
  rds !! i = Some rdi → rds !! j = Some rdj → (i < j)%nat →
  methodMatchRate r rdi = methodMatchRate r rdj →
  pathMatchRate r rdi = Some p → pathMatchRate r rdj = Some p →
  (∀ k, bestRoute st = Some k → (k < idx)%nat) →
  bestRoute st' ≠ Some (idx + j)%nat.
Proof.
  revert idx st i j. induction rds as [|rd0 rds IH]; intros idx st i j; simpl; [done|].
  destruct (pickupStep r idx rd0 st) as [st1|] eqn:Hstep; simpl; [|done].
  intros Hloop Hi Hj Hlt Hm Hpi Hpj Hold.
  destruct j as [|j]; [lia|]. simpl in Hj.
  assert (Hold1 : ∀ k, bestRoute st1 = Some k → (k < S idx)%nat).
  { destruct (pickupStep_cases _ _ _ _ _ Hstep) as [->|(? & _ & -> & _)].
    - intros k Hk. specialize (Hold k Hk). lia.
    - simpl. intros k [= <-]. lia. }
    replace (idx + S j)%nat with (S idx + j)%nat by lia.
    destruct i as [|i]; simpl in Hi.
  - injection Hi as ->.
    eapply blocked_never_selected; [exact Hloop|exact Hj|exact Hpj| |].
    + rewrite <- Hm. by eapply pickupStep_blocks.
    + intros Hk. specialize (Hold1 _ Hk). lia.
  - eapply (IH (S idx) st1 i j); try done. lia.
Qed.

(** After the loop every visited entry is blocked. *)
Lemma visited_blocked rds idx st st' k rd p :
  pickupLoop r idx rds st = Some st' →
  rds !! k = Some rd →
  pathMatchRate r rd = Some p →
  blocked st' (methodMatchRate r rd) p.
Proof.
  revert idx st k. induction rds as [|rd0 rds IH]; intros idx st k; simpl; [done|].
  destruct (pickupStep r idx rd0 st) as [st1|] eqn:Hstep; simpl; [|done].
  intros Hloop Hk Hp. destruct k as [|k]; simpl in Hk.
  - injection Hk as ->. eapply blocked_grows.
    + by eapply pickupStep_blocks.
    + by eapply pickupLoop_grows.
  - by eapply IH.
Qed.

Lemma pickupStep_replace idx rd st p :
  pathMatchRate r rd = Some p →
  ¬ blocked st (methodMatchRate r rd) p →
  pickupStep r idx rd st
  = Some {| bestRoute := Some idx;
            bestMethodMatchRate := methodMatchRate r rd;
            bestPathMatchRate := p |}.
Proof.
  intros Hp Hnb. unfold pickupStep, blocked in *. rewrite Hp. simpl.
  destruct (Z.eqb_spec (methodMatchRate r rd) noMethodMatch); [tauto|].
  destruct (Z.ltb_spec (methodMatchRate r rd) (bestMethodMatchRate st)); [tauto|].
  destruct (Z.eqb_spec p noPathMatch); [tauto|].
  destruct (Z.ltb_spec p (bestPathMatchRate st)); [tauto|].
  destruct (Z.eqb_spec (bestMethodMatchRate st) (methodMatchRate r rd));
    destruct (Z.eqb_spec (bestPathMatchRate st) p); simpl; tauto.
Qed.

Lemma rateLoop_ge isVars req i tokens rate q :
  rateLoop isVars req i tokens rate = Some q → rate ≤ q.
Proof.
  revert i rate. induction tokens as [|t rest IH]; intros i rate; simpl.
  { intros [= <-]. lia. }
  destruct (i =? 0)%nat; [apply IH|].
  destruct (isVars !! i) as [[]|]; simpl; [| |done].
  { intros H%IH. unfold exactPathMatch in H. lia. }
  destruct (decide (t = "")).
  { intros H%IH. unfold starPathMatch in H. lia. }
  destruct (req !! i) as [rp|]; simpl; [|done].
  destruct (decide (t = rp)); intros H%IH; unfold exactPathMatch in *; lia.
Qed.

Lemma pathMatchRate_nonneg rd p : pathMatchRate r rd = Some p → 0 ≤ p.
Proof.
  unfold pathMatchRate. destruct (Match _ _) as [m|]; simpl; [|done].
  destruct (negb m.1); [intros [= <-]; unfold noPathMatch; lia|].
  destruct (_ <? _)%nat; [intros [= <-]; unfold noPathMatch; lia|].
  apply rateLoop_ge.
Qed.

Lemma methodMatchRate_nonneg rd : 0 ≤ methodMatchRate r rd.
Proof.
  unfold methodMatchRate, starMethodMatch, overloadMethodMatch, exactMethodMatch,
    noMethodMatch. repeat case_match; lia.
Qed.

(** The path rate only depends on the entry's template. *)
Lemma pathMatchRate_template rd1 rd2 :
  rd_PathTemplate rd1 = rd_PathTemplate rd2 →
  pathMatchRate r rd1 = pathMatchRate r rd2.
Proof. unfold pathMatchRate. by intros ->. Qed.

(** The first entry of a table is the result so far when it is eligible. *)
Lemma pickupStep_first rd p :
  pathMatchRate r rd = Some p →
  methodMatchRate r rd ≠ noMethodMatch → p ≠ noPathMatch →
  pickupStep r 0 rd noBest
  = Some {| bestRoute := Some 0%nat;
            bestMethodMatchRate := methodMatchRate r rd;
            bestPathMatchRate := p |}.
Proof.
  intros Hp Hm Hp0. apply pickupStep_replace; [done|].
  pose proof (methodMatchRate_nonneg rd). pose proof (pathMatchRate_nonneg _ _ Hp).
  unfold blocked, noBest, noMethodMatch, noPathMatch in *. simpl. lia.
Qed.
End selection_order.

(** ** Registration order breaks ties *)


(** ** Routes used in the examples *)

Definition exampleHandler : HandlerContainer :=
  {| Handler := IsFunc {| fn_In := []; fn_Call := λ _, Some [] |} |}.

Definition exampleRoute (method path : string) : RouteDefinition :=
  {| rd_Method := method;
     rd_PathTemplate := ParsePathTemplate path;
     rd_HandlerContainer := exampleHandler |}.

Definition exampleRequest (method path : string) : Request :=
  {| r_Method := method; r_Path := path; r_EscapedPath := path; r_Query := [];
     r_ContentType := ""; r_Body := None |}.


(** ** An exact method beats the wildcard method *)

(** C2 (as the code has it). For a wildcard entry and an entry registered
    for the request's method with the same template, whenever the path rate
    of that template for the request is not zero the wildcard entry is never
    the result, wherever the two stand in the table; and a table made of just
    the two resolves to the exact-method entry in both orders. *)
Theorem C2_exact_method_beats_wildcard (ro : Router) (r : Request)
    (i j : nat) (rdStar rdExact : RouteDefinition) :
  wf_router ro →
  handlers ro !! i = Some rdStar →
  handlers ro !! j = Some rdExact →
  rd_Method rdStar = "*" →
  rd_Method rdExact = r_Method r →
  r_Method r ≠ "*" →
  rd_PathTemplate rdStar = rd_PathTemplate rdExact →
  pathMatchRate r rdExact ≠ Some noPathMatch →
  ∃ best, pickupBestRouteDefinition ro r = Some best
          ∧ best ≠ Some i
          ∧ (handlers ro = [rdStar; rdExact] → best = Some 1%nat)
          ∧ (handlers ro = [rdExact; rdStar] → best = Some 0%nat).
Proof.
  intros Hwf Hi Hj Hstar Hexact Hnot Htmpl Hp0.
  assert (Hwfj : wf_template (rd_PathTemplate rdExact)).
  { unfold wf_router in Hwf. rewrite Forall_lookup in Hwf. by eapply Hwf. }
  destruct (pathMatchRate_total r rdExact Hwfj) as [p Hpj].
  assert (Hpi : pathMatchRate r rdStar = Some p).
  { by rewrite (pathMatchRate_template r rdStar rdExact Htmpl). }
  assert (Hp : p ≠ noPathMatch) by congruence.
  assert (Hms : methodMatchRate r rdStar = starMethodMatch).
  { unfold methodMatchRate. by rewrite decide_True. }
  assert (Hme : methodMatchRate r rdExact = exactMethodMatch).
  { unfold methodMatchRate. rewrite decide_False by congruence.
    rewrite decide_False; [by rewrite decide_True|].
    intros [H1 H2]. congruence. }
  destruct (pickupLoop_total r 0 (handlers ro) noBest Hwf) as [st' Hloop].
  exists (bestRoute st'). unfold pickupBestRouteDefinition. rewrite Hloop.
  split_and!; [done| | |].
  - intros Hbest.
    pose proof (visited_blocked r _ _ _ _ _ _ _ Hloop Hj Hpj) as Hb.
    assert (Hinv : rates_of_best r (handlers ro) st').
    { eapply pickupLoop_rates_of_best; [|  |exact Hloop]; [done|].
      intros k. simpl. done. }
    destruct (Hinv _ Hbest) as (rd & Hrd & Hm & Hpath).
    rewrite Hi in Hrd. injection Hrd as <-.
    rewrite Hpi in Hpath. injection Hpath as Hpath.
    rewrite Hme in Hb. rewrite Hms in Hm.
    unfold blocked, starMethodMatch, exactMethodMatch, noMethodMatch, noPathMatch in *.
    lia.
  - intros Htable. rewrite Htable in Hloop. simpl in Hloop.
    rewrite (pickupStep_first r rdStar p) in Hloop; [|done|by rewrite Hms|done].
    simpl in Hloop. rewrite (pickupStep_replace r 1 rdExact _ p) in Hloop; [|done|].
    + simpl in Hloop. by injection Hloop as <-.
    + unfold blocked. simpl. rewrite Hms, Hme.
      unfold starMethodMatch, exactMethodMatch, noMethodMatch, noPathMatch in *. lia.
  - intros Htable. rewrite Htable in Hloop. simpl in Hloop.
    rewrite (pickupStep_first r rdExact p) in Hloop; [|done|by rewrite Hme|done].
    simpl in Hloop. rewrite (pickupStep_blocked r 1 rdStar _ p) in Hloop; [|done|].
    + simpl in Hloop. by injection Hloop as <-.
    + unfold blocked. simpl. rewrite Hms, Hme.
      unfold starMethodMatch, exactMethodMatch. lia.
Qed.

Lemma C2_exact_method_beats_wildcard_witness :
  ∃ best,
    pickupBestRouteDefinition
      {| handlers := [exampleRoute "*" "/a/{id}"; exampleRoute "POST" "/a/{id}"] |}
      (exampleRequest "POST" "/a/7") = Some best
    ∧ best ≠ Some 0%nat.
Proof.
  destruct (C2_exact_method_beats_wildcard
    {| handlers := [exampleRoute "*" "/a/{id}"; exampleRoute "POST" "/a/{id}"] |}
    (exampleRequest "POST" "/a/7") 0 1
    (exampleRoute "*" "/a/{id}") (exampleRoute "POST" "/a/{id}"))
    as (best & Hbest & Hne & _).
  - repeat constructor.
  - reflexivity.
  - reflexivity.
  - reflexivity.
  - reflexivity.
  - discriminate.
  - reflexivity.
  - discriminate.
  - exists best. split; [exact Hbest|exact Hne].
Defined.

(** C2 as the specification words it fails: [Match] accepts [/ab] for the
    template [/a] (by the prefix fast path), yet the path rate is zero and
    neither entry is picked, in either order. *)
Lemma C2_counterexample :
  Match (ParsePathTemplate "/a") "/ab" = Some (true, ∅)
  ∧ pickupBestRouteDefinition
      {| handlers := [exampleRoute "*" "/a"; exampleRoute "GET" "/a"] |}
      (exampleRequest "GET" "/ab") = Some None
  ∧ pickupBestRouteDefinition
      {| handlers := [exampleRoute "GET" "/a"; exampleRoute "*" "/a"] |}
      (exampleRequest "GET" "/ab") = Some None.
Proof. split_and!; reflexivity. Qed.

(** ** A trailing separator after a variable segment *)

(** C3 (what the code does). With ["/a/"] and ["/a/{bar}/"] registered for
    one method, in either order, a request for [/a/x/y] with that method is
    routed to ["/a/"]: [Match] rejects ["/a/{bar}/"] because its last, empty
    segment is compared with [y]. *)
Theorem C3_prefix_route_is_picked (method : string) (h1 h2 : HandlerContainer)
    (query : list (string * list string)) (ct : string)
    (body : option (string * option string)) :
  let r := {| r_Method := method; r_Path := "/a/x/y"; r_EscapedPath := "/a/x/y";
              r_Query := query; r_ContentType := ct; r_Body := body |} in
  let short := {| rd_Method := method; rd_PathTemplate := ParsePathTemplate "/a/";
                  rd_HandlerContainer := h1 |} in
  let long := {| rd_Method := method; rd_PathTemplate := ParsePathTemplate "/a/{bar}/";
                 rd_HandlerContainer := h2 |} in
  Match (ParsePathTemplate "/a/{bar}/") "/a/x/y" = Some (false, ∅)
  ∧ pathMatchRate r long = Some noPathMatch
  ∧ pathMatchRate r short = Some 3
  ∧ pickupBestRouteDefinition {| handlers := [short; long] |} r = Some (Some 0%nat)
  ∧ pickupBestRouteDefinition {| handlers := [long; short] |} r = Some (Some 1%nat).
Proof.
  intros r short long.
  assert (Hl : pathMatchRate r long = Some noPathMatch) by reflexivity.
  assert (Hs : pathMatchRate r short = Some 3) by reflexivity.
  assert (Hm : methodMatchRate r short ≠ noMethodMatch).
  { unfold methodMatchRate, short, r. simpl.
    destruct (decide (method = "*")); [done|].
    rewrite decide_False by (intros [-> [=]]). by rewrite decide_True. }
  split_and!; [reflexivity|done|done| |].
  - unfold pickupBestRouteDefinition. simpl.
    rewrite (pickupStep_first r short 3) by done. simpl.
    rewrite (pickupStep_blocked r 1 long _ noPathMatch); [done|done|].
    unfold blocked. tauto.
  - unfold pickupBestRouteDefinition. simpl.
    rewrite (pickupStep_blocked r 0 long _ noPathMatch); [|done|unfold blocked; tauto].
    simpl. rewrite (pickupStep_replace r 1 short _ 3); [done|done|].
    pose proof (methodMatchRate_nonneg r short).
    unfold blocked, noBest, noMethodMatch, noPathMatch in *. simpl. lia.
Qed.

(** * Properties of the middleware chain *)

Section chain.

Variable AssignableTo : rtype → rtype → bool.

Lemma Bubble_do_queueIndex (b : Bubble) :
  queueIndex (Bubble_do AssignableTo b).1 = queueIndex b.
Proof.
  unfold Bubble_do. repeat case_match; done.
Qed.

(** Two readings of [b.Next()] that agree from cursor [q] on, never move
    the cursor back and always return give the same run of a middleware. *)
Lemma runMiddleware_ext (q : nat) (next1 next2 : Bubble → option (Bubble * Outcome)) :
  (∀ b, (q ≤ queueIndex b)%nat →
        next1 b = next2 b
        ∧ is_Some (next1 b)
        ∧ ∀ res, next1 b = Some res → (queueIndex b ≤ queueIndex res.1)%nat) →
  ∀ m b, (q ≤ queueIndex b)%nat →
    runMiddleware next1 m b = runMiddleware next2 m b
    ∧ is_Some (runMiddleware next1 m b)
    ∧ ∀ res, runMiddleware next1 m b = Some res → (queueIndex b ≤ queueIndex res.1)%nat.
Proof.
  intros Hnext m. induction m as [err| |k IH|k IH|f k IH]; intros b Hq; simpl.
  - split_and!; [done|by eexists|]. by intros res [= <-].
  - split_and!; [done|by eexists|]. by intros res [= <-].
  - destruct (Hnext b Hq) as (Heq & [res Hres] & Hmono).
    rewrite <- Heq, Hres. simpl. specialize (Hmono _ Hres).
    destruct res as [b1 [err|]]; simpl in *.
    + destruct (IH err b1) as (IH1 & IH2 & IH3); [lia|].
      split_and!; [done..|]. intros res' Hres'. specialize (IH3 _ Hres'). lia.
    + split_and!; [done|by eexists|]. by intros res' [= <-].
  - by apply IH.
  - destruct (IH (update_exported f b)) as (IH1 & IH2 & IH3); [done|].
    split_and!; [done..|]. intros res Hres. by apply IH3.
Qed.

Lemma Bubble_NextFuel_enough (middlewares : list MiddlewareFunc) (fuel : nat) :
  ∀ b, (length middlewares - queueIndex b ≤ fuel)%nat →
    (∀ fuel2, (length middlewares - queueIndex b ≤ fuel2)%nat →
       Bubble_NextFuel AssignableTo middlewares fuel b
       = Bubble_NextFuel AssignableTo middlewares fuel2 b)
    ∧ is_Some (Bubble_NextFuel AssignableTo middlewares fuel b)
    ∧ ∀ res, Bubble_NextFuel AssignableTo middlewares fuel b = Some res →
             (queueIndex b ≤ queueIndex res.1)%nat.
Proof.
  induction fuel as [|fuel IH]; intros b Hfuel.
  - assert (Hge : (queueIndex b <? length middlewares)%nat = false)
      by (apply Nat.ltb_ge; lia).
    split_and!.
    + intros fuel2 _. destruct fuel2; simpl; by rewrite Hge.
    + simpl. rewrite Hge. by eexists.
    + simpl. rewrite Hge. intros res [= <-]. by rewrite Bubble_do_queueIndex.
  - destruct (Nat.ltb_spec (queueIndex b) (length middlewares)) as [Hlt|Hge].
    + destruct (lookup_lt_is_Some_2 middlewares (queueIndex b) Hlt) as [m Hm].
      assert (Hinner : ∀ fuel2, (length middlewares - S (queueIndex b) ≤ fuel2)%nat →
        ∀ b0, (S (queueIndex b) ≤ queueIndex b0)%nat →
        Bubble_NextFuel AssignableTo middlewares fuel b0
        = Bubble_NextFuel AssignableTo middlewares fuel2 b0
        ∧ is_Some (Bubble_NextFuel AssignableTo middlewares fuel b0)
        ∧ ∀ res, Bubble_NextFuel AssignableTo middlewares fuel b0 = Some res →
        (queueIndex b0 ≤ queueIndex res.1)%nat).
      { intros fuel2 Hf2 b0 Hb0. destruct (IH b0) as (H1 & H2 & H3); [lia|].
        split_and!; [apply H1; lia|done|done]. }
      split_and!.
      * intros fuel2 Hf2. destruct fuel2 as [|fuel2]; [lia|].
        simpl. apply Nat.ltb_lt in Hlt. rewrite Hlt, Hm. simpl.
        apply (runMiddleware_ext (S (queueIndex b))); [|done].
        apply Hinner. lia.
      * simpl. apply Nat.ltb_lt in Hlt. rewrite Hlt, Hm. simpl.
        apply (runMiddleware_ext (S (queueIndex b)) _ _ (Hinner fuel ltac:(lia))). done.
      * simpl. apply Nat.ltb_lt in Hlt. rewrite Hlt, Hm. simpl. intros res Hres.
        destruct (runMiddleware_ext (S (queueIndex b)) _ _ (Hinner fuel ltac:(lia))
          m (enter b)) as (_ & _ & Hmono); [done|].
        specialize (Hmono _ Hres). simpl in Hmono. lia.
    + assert (Hf : (queueIndex b <? length middlewares)%nat = false)
        by (by apply Nat.ltb_ge).
      split_and!.
      * intros fuel2 _. destruct fuel2; simpl; by rewrite Hf.
      * simpl. rewrite Hf. by eexists.
      * simpl. rewrite Hf. intros res [= <-]. by rewrite Bubble_do_queueIndex.
Qed.

(** [Next] always returns: the fuel it is given never runs out. *)
Lemma Bubble_Next_total (middlewares : list MiddlewareFunc) (b : Bubble) :
  is_Some (Bubble_Next AssignableTo middlewares b).
Proof. by apply Bubble_NextFuel_enough. Qed.


(** [Next] as the source reads: below the end of the chain it advances the
    cursor and runs the middleware, whose [b.Next()] is [Next] again; at the
    end it runs [do]. *)
Lemma Bubble_Next_unfold (middlewares : list MiddlewareFunc) (b : Bubble) :
  Bubble_Next AssignableTo middlewares b
  = if (queueIndex b <? length middlewares)%nat then
      m ← middlewares !! queueIndex b;
      runMiddleware (Bubble_Next AssignableTo middlewares) m (enter b)
    else Some (Bubble_do AssignableTo b).
Proof.
  unfold Bubble_Next at 1.
  destruct (Nat.ltb_spec (queueIndex b) (length middlewares)) as [Hlt|Hge].
  - destruct (length middlewares - queueIndex b)%nat as [|fuel] eqn:Hfuel; [lia|].
    simpl. apply Nat.ltb_lt in Hlt. rewrite Hlt.
    destruct (middlewares !! queueIndex b) as [m|]; simpl; [|done].
    apply (runMiddleware_ext (S (queueIndex b))); [|done].
    intros b0 Hb0. unfold Bubble_Next.
    destruct (Bubble_NextFuel_enough middlewares fuel b0) as (H1 & H2 & H3); [lia|].
    split_and!; [apply H1; lia|done|done].
  - destruct (length middlewares - queueIndex b)%nat; simpl;
      apply Nat.ltb_ge in Hge; by rewrite Hge.
Qed.

End chain.

(** ** The terminal handler is called on valid arguments only *)

Section handler_call.

Variable AssignableTo : rtype → rtype → bool.







End handler_call.

(** ** A middleware that does not call Next *)



(** The body has no [b.Next()] on any path. *)
Inductive neverCallsNext : MiddlewareFunc → Prop :=
  | ncn_Return err : neverCallsNext (Return err)
  | ncn_Panic : neverCallsNext Panic
  | ncn_Inspect k : (∀ b, neverCallsNext (k b)) → neverCallsNext (Inspect k)
  | ncn_Update f k : neverCallsNext k → neverCallsNext (Update f k).

(** The body calls [b.Next()] at most once on every path. *)
Inductive callsNextAtMostOnce : MiddlewareFunc → Prop :=
  | amo_Return err : callsNextAtMostOnce (Return err)
  | amo_Panic : callsNextAtMostOnce Panic
  | amo_CallNext k : (∀ err, neverCallsNext (k err)) → callsNextAtMostOnce (CallNext k)
  | amo_Inspect k : (∀ b, callsNextAtMostOnce (k b)) → callsNextAtMostOnce (Inspect k)
  | amo_Update f k : callsNextAtMostOnce k → callsNextAtMostOnce (Update f k).



Lemma run_neverCallsNext next (m : MiddlewareFunc) (b : Bubble) res :
  neverCallsNext m →
  runMiddleware next m b = Some res →
  trace res.1 = trace b ∧ queueIndex res.1 = queueIndex b.
Proof.
  intros Hm. revert b. induction Hm as [err| |k _ IH|f k _ IH]; intros b; simpl.
  - by intros [= <-].
  - by intros [= <-].
  - apply IH.
  - intros Hrun. by apply IH in Hrun.
Qed.

Lemma run_callsNextAtMostOnce next (m : MiddlewareFunc) (b : Bubble) res :
  callsNextAtMostOnce m →
  runMiddleware next m b = Some res →
  trace res.1 = trace b
  ∨ ∃ b1 res1, queueIndex b1 = queueIndex b ∧ trace b1 = trace b
               ∧ next b1 = Some res1 ∧ trace res.1 = trace res1.1.
Proof.
  intros Hm. revert b. induction Hm as [err| |k Hk|k _ IH|f k _ IH]; intros b; simpl.
  - intros [= <-]. by left.
  - intros [= <-]. by left.
  - destruct (next b) as [res1|] eqn:Hnext; simpl; [|done].
    intros Hrun. right. exists b, res1. split_and!; [done..|].
    destruct res1 as [b1 [err|]]; simpl in *.
    + by apply (run_neverCallsNext _ _ _ _ (Hk err)) in Hrun as [? _].
    + by injection Hrun as <-.
  - apply IH.
  - intros Hrun. by apply IH in Hrun.
Qed.

Section short_circuit.

Variable AssignableTo : rtype → rtype → bool.
Variable middlewares : list MiddlewareFunc.




End short_circuit.

(** ** Chains used in the examples *)

(** A stand-in for Go's assignability: the kinds agree. *)
Definition exampleAssignable (t1 t2 : rtype) : bool :=
  bool_decide (rtype_Kind t1 = rtype_Kind t2).

(** The bubble [newBubble] builds for a handler without parameters. *)
Definition exampleBubble : Bubble :=
  {| R := exampleRequest "GET" "/"; b_Context := None;
     RequestHandler := exampleHandler; Debug := false; Handled := false;
     ArgumentTypes := []; Arguments := []; Returns := [];
     queueIndex := 0; trace := [] |}.

(** [func(b *Bubble) error { return b.Next() }]. *)
Definition passMiddleware : MiddlewareFunc := CallNext Return.

(** [func(b *Bubble) error { return errors.New("stop") }]. *)
Definition stopMiddleware : MiddlewareFunc := Return (Some (errorString "stop")).





(** * Properties of the request-object mapper *)

(** A middleware that ends with [return b.Next()] ends as [Next] does. *)
Lemma run_CallNext_Return next (b : Bubble) :
  runMiddleware next (CallNext Return) b = next b.
Proof.
  simpl. destruct (next b) as [[b' [err|]]|]; done.
Qed.


Lemma findArgument_spec (argumentTypes : list rtype) (idx : nat) (args : list Value) :
  (idx + length args ≤ length argumentTypes)%nat →
  match findArgument argumentTypes idx args with
  | None => False
  | Some None =>
      ∀ k, args !! k = Some None →
           ∃ t, argumentTypes !! (idx + k)%nat = Some t ∧ isPtrToStruct t = false
  | Some (Some (i, t)) =>
      ∃ k, i = (idx + k)%nat ∧ args !! k = Some None
           ∧ argumentTypes !! i = Some t ∧ isPtrToStruct t = true
           ∧ ∀ k', (k' < k)%nat → args !! k' = Some None →
                   ∃ t', argumentTypes !! (idx + k')%nat = Some t'
                         ∧ isPtrToStruct t' = false
  end.
Proof.
  revert idx. induction args as [|arg rest IH]; intros idx Hlen; simpl in *.
  { intros k Hk. by rewrite lookup_nil in Hk. }
  specialize (IH (S idx) ltac:(lia)).
  assert (Hshift : ∀ k, (S idx + k)%nat = (idx + S k)%nat) by (intros; lia).
  destruct arg as [v|]; simpl.
  - destruct (findArgument argumentTypes (S idx) rest) as [[[i t]|]|]; [| |done].
    + destruct IH as (k & -> & Hk & Ht & Hp & Hmin).
      exists (S k). split_and!; [lia|done|done|done|].
      intros [|k'] Hlt Hk'; [done|]. rewrite <- Hshift. apply Hmin; [lia|done].
    + intros [|k] Hk; [done|]. rewrite <- Hshift. by apply IH.
  - destruct (lookup_lt_is_Some_2 argumentTypes idx) as [argT HargT]; [lia|].
    rewrite HargT. simpl. destruct (isPtrToStruct argT) eqn:Hptr.
    + exists 0%nat. rewrite Nat.add_0_r. split_and!; [done..|]. intros k' Hk'. lia.
    + destruct (findArgument argumentTypes (S idx) rest) as [[[i t]|]|]; [| |done].
      * destruct IH as (k & -> & Hk & Ht & Hp & Hmin).
        exists (S k). split_and!; [lia|done|done|done|].
        intros [|k'] Hlt Hk'.
        -- rewrite Nat.add_0_r. by exists argT.
        -- rewrite <- Hshift. apply Hmin; [lia|done].
      * intros [|k] Hk.
        -- rewrite Nat.add_0_r. by exists argT.
        -- rewrite <- Hshift. by apply IH.
Qed.

Section request_object_mapper.

Variable setFromString : rvalue → string → option (rvalue * option error).
Variable valueStringSliceMapper : string → list string → rvalue → Mapped.
Variable jsonUnmarshal : string → rvalue → rvalue * option string.
Variable rangeOrder : gmap string string → list (string * string).

Let mapper : MiddlewareFunc :=
  RequestObjectMapper setFromString valueStringSliceMapper jsonUnmarshal rangeOrder.

Let build : Bubble → rtype → Phase :=
  buildRequestObject setFromString valueStringSliceMapper jsonUnmarshal rangeOrder.

(** The run of the mapper, by what the slot search and the build give. *)
Lemma run_RequestObjectMapper next (b : Bubble) :
  runMiddleware next mapper b
  = match findArgument (ArgumentTypes b) 0 (Arguments b) with
    | None => Some (b, Panicked)
    | Some None => next b
    | Some (Some (argIdx, argT)) =>
        match build b argT with
        | Crash => Some (b, Panicked)
        | Fail err => Some (b, Returned (Some err))
        | Continue reqV => next (set_Argument argIdx reqV b)
        end
    end.
Proof.
  unfold mapper, RequestObjectMapper, build.
  cbn [runMiddleware].
  destruct (findArgument _ _ _) as [[[argIdx argT]|]|]; [|apply run_CallNext_Return|done].
  destruct (buildRequestObject _ _ _ _ _ _); [|done..].
  cbn [runMiddleware]. apply run_CallNext_Return.
Qed.


End request_object_mapper.

(** ** An empty or two-byte JSON body *)

(** C8. For a request whose content type is JSON and whose body is empty or
    two bytes long, once the object [reqV] has been built from the path
    parameters and the query, the mapper assigns [reqV] itself to the slot
    and continues the chain: the JSON block leaves the object alone and
    raises no error, whatever the decoder would have done with the body. *)
Theorem C8_empty_or_two_byte_json_body
    (setFromString : rvalue → string → option (rvalue * option error))
    (valueStringSliceMapper : string → list string → rvalue → Mapped)
    (jsonUnmarshal : string → rvalue → rvalue * option string)
    (rangeOrder : gmap string string → list (string * string))
    next (b : Bubble) (argIdx : nat) (argT elemT : rtype) (reqV : rvalue)
    (body : string) :
  findArgument (ArgumentTypes b) 0 (Arguments b) = Some (Some (argIdx, argT)) →
  rtype_Elem argT = Some elemT →
  andThen (pathPhase setFromString rangeOrder (b_Context b) (reflect_New elemT))
          (queryPhase valueStringSliceMapper (r_Query (R b))) = Continue reqV →
  readBody (R b) = (body, None) →
  default "" (head (SplitOn ";"%char (r_ContentType (R b)))) = "application/json" →
  String.length body = 0%nat ∨ String.length body = 2%nat →
  jsonPhase jsonUnmarshal (r_ContentType (R b)) body reqV = Continue reqV
  ∧ runMiddleware next
      (RequestObjectMapper setFromString valueStringSliceMapper jsonUnmarshal rangeOrder) b
    = next (set_Argument argIdx reqV b).
Proof.
  intros Hfind Helem Hphases Hbody Hct Hlen.
  assert (Hjson : jsonPhase jsonUnmarshal (r_ContentType (R b)) body reqV = Continue reqV).
  { unfold jsonPhase. rewrite decide_True by done.
    destruct Hlen as [-> | ->]; reflexivity. }
  split; [done|].
  rewrite run_RequestObjectMapper, Hfind.
  unfold buildRequestObject. rewrite Helem.
  unfold andThen in *.
  destruct (pathPhase _ _ _ _) as [reqV1| |]; [|done..].
  rewrite Hphases, Hbody, Hjson. done.
Qed.

(** ** A path variable without a field *)

(** Induction on values through the fields of structs, the elements of
    slices and the target of pointers. *)
Section rvalue_induction.

Variable P : rvalue → Prop.
Hypothesis HScalar : ∀ k lit, P (VScalar k lit).
Hypothesis HNil : ∀ e, P (VPtr e None).
Hypothesis HPtr : ∀ e v, P v → P (VPtr e (Some v)).
Hypothesis HSlice : ∀ e elems, Forall P elems → P (VSlice e elems).
Hypothesis HStruct : ∀ n fields, Forall (λ fv, P fv.2) fields → P (VStruct n fields).
Hypothesis HNamed : ∀ n k handle, P (VNamed n k handle).

Fixpoint rvalue_nested_ind (v : rvalue) : P v :=
  match v with
  | VScalar k lit => HScalar k lit
  | VPtr e None => HNil e
  | VPtr e (Some w) => HPtr e w (rvalue_nested_ind w)
  | VSlice e elems =>
      HSlice e elems
        ((fix go (l : list rvalue) : Forall P l :=
            match l with
            | [] => @List.Forall_nil _ P
            | x :: rest => @List.Forall_cons _ P x rest (rvalue_nested_ind x) (go rest)
            end) elems)
  | VStruct n fields =>
      HStruct n fields
        ((fix go (l : list (StructField * rvalue)) : Forall (λ fv, P fv.2) l :=
            match l with
            | [] => @List.Forall_nil _ (λ fv, P fv.2)
            | fv :: rest =>
                @List.Forall_cons _ (λ fv, P fv.2) fv rest
                  match fv return P fv.2 with (_, f) => rvalue_nested_ind f end
                  (go rest)
            end) fields)
  | VNamed n k handle => HNamed n k handle
  end.

End rvalue_induction.

(** The fields a key can select: not ignored, reached through embedded
    structs, named by [structFieldToKey]. *)
Definition fieldsHave (rec : rvalue → bool) (key : string)
    (fields : list (StructField * rvalue)) : bool :=
  existsb (λ fv,
             negb (TagJSON_Ignored (sf_Tag fv.1))
             && (if sf_Anonymous fv.1 then rec fv.2
                 else bool_decide (structFieldToKey fv.1 = key)))
          fields.

(** The object, or the struct it points to, has a field for the key. *)
Fixpoint hasField (key : string) (target : rvalue) : bool :=
  match target with
  | VStruct _ fields => fieldsHave (hasField key) key fields
  | VPtr _ (Some (VStruct _ fields)) => fieldsHave (hasField key) key fields
  | _ => false
  end.

Section missing_field.

Variable setFromString : rvalue → string → option (rvalue * option error).
Variable key value : string.

Let rec : rvalue → Mapped := valueStringMapper setFromString key value.

Lemma mapperFieldLoop_cons (sf : StructField) (f : rvalue)
    (rest : list (StructField * rvalue)) :
  mapperFieldLoop setFromString rec key value ((sf, f) :: rest)
  = let continue (f' : rvalue) :=
      res ← mapperFieldLoop setFromString rec key value rest;
      Some ((sf, f') :: res.1, res.2) in
    if TagJSON_Ignored (sf_Tag sf) then continue f
    else if sf_Anonymous sf then
      res ← rec f;
      match res.2 with
      | (_, Some err) => Some ((sf, res.1) :: rest, (false, Some err))
      | (true, None) => Some ((sf, res.1) :: rest, (true, None))
      | (false, None) => continue res.1
      end
    else if decide (structFieldToKey sf ≠ key) then continue f
    else
      res ← setFromString f value;
      Some ((sf, res.1) :: rest, (true, res.2)).
Proof. reflexivity. Qed.

Lemma valueStringMapper_struct (n : string) (fields : list (StructField * rvalue)) :
  rec (VStruct n fields)
  = res ← mapperFieldLoop setFromString rec key value fields;
    Some (VStruct n res.1, res.2).
Proof. reflexivity. Qed.

Lemma valueStringMapper_ptr (e : rtype) (n : string)
    (fields : list (StructField * rvalue)) :
  rec (VPtr e (Some (VStruct n fields)))
  = (λ res, (VPtr e (Some res.1), res.2)) <$> rec (VStruct n fields).
Proof.
  unfold rec. simpl.
  by destruct (mapperFieldLoop _ _ _ _ _) as [[fields' res]|].
Qed.

(** Without a field for the key the mapper reports [found = false] and
    leaves the target as it is. *)
Definition notFoundLeavesAlone (v : rvalue) : Prop :=
  hasField key v = false → ∀ res, rec v = Some res → res = (v, (false, None)).

Lemma mapperFieldLoop_not_found (fields : list (StructField * rvalue)) :
  Forall (λ fv, notFoundLeavesAlone fv.2) fields →
  fieldsHave (hasField key) key fields = false →
  ∀ res, mapperFieldLoop setFromString rec key value fields = Some res →
         res = (fields, (false, None)).
Proof.
  induction 1 as [|[sf f] rest Hf _ IH]; intros Hnone res.
  { by intros [= <-]. }
  unfold fieldsHave in Hnone. simpl in Hnone.
  apply orb_false_elim in Hnone as [Hhead Hrest].
  specialize (IH Hrest).
  assert (Hcontinue :
    (res' ← mapperFieldLoop setFromString rec key value rest;
     Some ((sf, f) :: res'.1, res'.2)) = Some res → res = ((sf, f) :: rest, (false, None))).
  { destruct (mapperFieldLoop _ _ _ _ rest) as [res'|]; simpl; [|done].
    intros [= <-]. by rewrite (IH res' eq_refl). }
  rewrite mapperFieldLoop_cons. cbv zeta.
  destruct (TagJSON_Ignored (sf_Tag sf)); [done|]. simpl in Hhead.
  destruct (sf_Anonymous sf).
  - destruct (rec f) as [r|] eqn:Hrec; simpl; [|done].
    rewrite (Hf Hhead r Hrec). simpl. done.
  - apply bool_decide_eq_false in Hhead. by rewrite decide_True.
Qed.

Lemma valueStringMapper_not_found (v : rvalue) : notFoundLeavesAlone v.
Proof.
  induction v as [k lit|e|e v IH|e elems _|n fields IH|n k handle]
    using rvalue_nested_ind; unfold notFoundLeavesAlone; try done.
  - destruct v as [| | |n fields|]; try done.
    intros Hnone res. rewrite valueStringMapper_ptr.
    destruct (rec (VStruct n fields)) as [r|] eqn:Hrec; simpl; [|done].
    intros [= <-]. by rewrite (IH Hnone r Hrec).
  - intros Hnone res. rewrite valueStringMapper_struct.
    destruct (mapperFieldLoop _ _ _ _ fields) as [r|] eqn:Hloop; simpl; [|done].
    intros [= <-]. by rewrite (mapperFieldLoop_not_found fields IH Hnone r Hloop).
Qed.

(** The mapper assigns to fields; which keys the object has fields for
    stays as it was. *)
Definition keepsFields (v : rvalue) : Prop :=
  ∀ res, rec v = Some res → ∀ key', hasField key' res.1 = hasField key' v.

Lemma mapperFieldLoop_keeps_fields (fields : list (StructField * rvalue)) :
  Forall (λ fv, keepsFields fv.2) fields →
  ∀ res, mapperFieldLoop setFromString rec key value fields = Some res →
  ∀ key', fieldsHave (hasField key') key' res.1
          = fieldsHave (hasField key') key' fields.
Proof.
  induction 1 as [|[sf f] rest Hf _ IH]; intros res.
  { by intros [= <-]. }
  assert (Hhead : ∀ f' tail key',
    (sf_Anonymous sf = true → hasField key' f' = hasField key' f) →
    fieldsHave (hasField key') key' tail = fieldsHave (hasField key') key' rest →
    fieldsHave (hasField key') key' ((sf, f') :: tail)
    = fieldsHave (hasField key') key' ((sf, f) :: rest)).
  { intros f' tail key' Hf' Htail. unfold fieldsHave in *. simpl. rewrite Htail.
    destruct (sf_Anonymous sf); [by rewrite Hf'|done]. }
  assert (Hcontinue : ∀ f',
    (sf_Anonymous sf = true → ∀ key', hasField key' f' = hasField key' f) →
    (res' ← mapperFieldLoop setFromString rec key value rest;
     Some ((sf, f') :: res'.1, res'.2)) = Some res →
    ∀ key', fieldsHave (hasField key') key' res.1
            = fieldsHave (hasField key') key' ((sf, f) :: rest)).
  { intros f' Hf'. destruct (mapperFieldLoop _ _ _ _ rest) as [res'|]; simpl; [|done].
    intros [= <-] key'. simpl. apply Hhead; [auto|]. by apply IH. }
  rewrite mapperFieldLoop_cons. cbv zeta.
  destruct (TagJSON_Ignored (sf_Tag sf)); [by apply Hcontinue|].
  destruct (sf_Anonymous sf) eqn:Hanon.
  - destruct (rec f) as [r|] eqn:Hrec; simpl; [|done].
    specialize (Hf r Hrec).
    destruct r as [f' [[] [err|]]]; simpl in *.
    + intros [= <-] key'. simpl. apply Hhead; [auto|done].
    + intros [= <-] key'. simpl. apply Hhead; [auto|done].
    + intros [= <-] key'. simpl. apply Hhead; [auto|done].
    + apply Hcontinue. auto.
  - destruct (decide (structFieldToKey sf ≠ key)); [by apply Hcontinue|].
    destruct (setFromString f value) as [r|]; simpl; [|done].
    intros [= <-] key'. simpl. apply Hhead; [done|done].
Qed.

Lemma valueStringMapper_keeps_fields (v : rvalue) : keepsFields v.
Proof.
  induction v as [k lit|e|e v IH|e elems _|n fields IH|n k handle]
    using rvalue_nested_ind; unfold keepsFields; try done.
  - destruct v as [| | |n fields|]; try done.
    intros res. rewrite valueStringMapper_ptr.
    destruct (rec (VStruct n fields)) as [r|] eqn:Hrec; simpl; [|done].
    intros [= <-] key'. specialize (IH r Hrec key'). simpl.
    rewrite valueStringMapper_struct in Hrec.
    destruct (mapperFieldLoop _ _ _ _ fields) as [r'|]; simpl in Hrec; [|done].
    injection Hrec as <-. simpl in *. exact IH.
  - intros res. rewrite valueStringMapper_struct.
    destruct (mapperFieldLoop _ _ _ _ fields) as [r|] eqn:Hloop; simpl; [|done].
    intros [= <-] key'. simpl.
    by apply (mapperFieldLoop_keeps_fields fields IH r Hloop).
Qed.

End missing_field.

(** A path parameter without a field ends the path loop: it is reported
    missing, unless a conversion panics first. *)
Lemma pathLoop_missing
    (setFromString : rvalue → string → option (rvalue * option error))
    (params : list (string * string)) (reqV : rvalue) (key value : string) :
  (key, value) ∈ params →
  hasField key reqV = false →
  pathLoop setFromString params reqV = Fail ErrPathParameterFieldMissing
  ∨ pathLoop setFromString params reqV = Crash.
Proof.
  revert reqV. induction params as [|[k v] rest IH]; intros reqV Hin Hnone.
  { by apply elem_of_nil in Hin. }
  simpl. destruct (valueStringMapper setFromString k v reqV) as [[reqV' [found err]]|] eqn:Hmap;
    [|by right].
  destruct found; [|by left].
  apply elem_of_cons in Hin as [[= <- <-]|Hin].
  - by pose proof (valueStringMapper_not_found setFromString key value reqV Hnone _ Hmap).
  - apply IH; [done|].
    rewrite <- Hnone.
    apply (valueStringMapper_keeps_fields setFromString k v reqV _ Hmap key).
Qed.

(** [Handle] looks at the handler only to see that it is a function. *)
Lemma Handle_registers (m : ServeMux) (method path : string) (hc : HandlerContainer)
    (hv : FuncValue) :
  Handler hc = IsFunc hv →
  ∃ m',
    Handle m method path hc = Some m'
    ∧ handlers (mux_router m')
      = (handlers (mux_router m)
         ++ ((λ method, {| rd_Method := method;
                           rd_PathTemplate := ParsePathTemplate path;
                           rd_HandlerContainer := hc |})
             <$> SplitOn ","%char (ToUpper method)))%list
    ∧ mux_middlewares m' = mux_middlewares m
    ∧ mux_plugins m' = mux_plugins m.
Proof.
  intros Hhv. unfold Handle. rewrite Hhv. simpl. eexists. split; [done|].
  split_and!; [|done..]. simpl.
  generalize (mux_router m). generalize (SplitOn ","%char (ToUpper method)).
  induction l as [|meth l IH]; intros ro; simpl.
  { by rewrite app_nil_r. }
  rewrite IH. simpl. by rewrite <- app_assoc.
Qed.

(** C9 (as the code has it). A path variable with no field in the handler's
    request-object type is not detected at registration: [Handle] registers
    the route of any handler that is a function, and gives it to the router
    like any other. The failure is per request: when the mapper builds the
    object for a bubble whose path parameters include a key the object has
    no field for, it ends with [ErrPathParameterFieldMissing] (or with the
    panic of a conversion), the bubble unchanged and [Next] not called. *)
Theorem C9_missing_path_field_fails_per_request
    (setFromString : rvalue → string → option (rvalue * option error))
    (valueStringSliceMapper : string → list string → rvalue → Mapped)
    (jsonUnmarshal : string → rvalue → rvalue * option string)
    (rangeOrder : gmap string string → list (string * string))
    (argT elemT : rtype) (key : string) :
  (∀ params, rangeOrder params ≡ₚ map_to_list params) →
  rtype_Elem argT = Some elemT →
  hasField key (reflect_New elemT) = false →
  (∀ m method path hc hv,
     Handler hc = IsFunc hv →
     argT ∈ fn_In hv →
     key ∈ PathParameters (ParsePathTemplate path) →
     ∃ m',
       Handle m method path hc = Some m'
       ∧ handlers (mux_router m')
         = (handlers (mux_router m)
            ++ ((λ method, {| rd_Method := method;
                              rd_PathTemplate := ParsePathTemplate path;
                              rd_HandlerContainer := hc |})
                <$> SplitOn ","%char (ToUpper method)))%list)
  ∧ (∀ next b argIdx params value,
       findArgument (ArgumentTypes b) 0 (Arguments b) = Some (Some (argIdx, argT)) →
       b_Context b = Some (PathParams params) →
       params !! key = Some value →
       runMiddleware next
         (RequestObjectMapper setFromString valueStringSliceMapper jsonUnmarshal
            rangeOrder) b
       = Some (b, Returned (Some ErrPathParameterFieldMissing))
       ∨ runMiddleware next
           (RequestObjectMapper setFromString valueStringSliceMapper jsonUnmarshal
              rangeOrder) b
         = Some (b, Panicked)).
Proof.
  intros Horder Helem Hnone. split.
  - intros m method path hc hv Hhv _ _.
    destruct (Handle_registers m method path hc hv Hhv) as (m' & ? & ? & _).
    by exists m'.
  - intros next b argIdx params value Hfind Hctx Hparam.
    rewrite run_RequestObjectMapper, Hfind.
    unfold buildRequestObject. rewrite Helem, Hctx. simpl.
    assert (Hin : (key, value) ∈ rangeOrder params).
    { rewrite (Horder params). by apply elem_of_map_to_list. }
    destruct (pathLoop_missing setFromString _ (reflect_New elemT) key value Hin Hnone)
      as [-> | ->]; simpl; [by left|by right].
Qed.

(** ** A mapper used in the examples *)

(** A conversion that stores the string in a scalar field. *)
Definition exampleSetFromString (f : rvalue) (s : string)
    : option (rvalue * option error) :=
  match f with
  | VScalar k _ => Some (VScalar k s, None)
  | _ => Some (f, Some (errorString "unsupported format"))
  end.

(** A query mapper that assigns the first value of the key. *)
Definition exampleSliceMapper (key : string) (values : list string)
    (target : rvalue) : Mapped :=
  match values with
  | [] => Some (target, (false, None))
  | s :: _ => valueStringMapper exampleSetFromString key s target
  end.

(** A decoder that rejects every body. *)
Definition exampleUnmarshal (body : string) (req : rvalue) : rvalue * option string :=
  (req, Some "invalid character").

Definition exampleMapper : MiddlewareFunc :=
  RequestObjectMapper exampleSetFromString exampleSliceMapper exampleUnmarshal
    map_to_list.

(** [struct { ID string `json:"id"`; Offset string `json:"offset,omitempty"` }]. *)
Definition exampleRequestStruct : rtype :=
  TStruct "Req"
    [ ({| sf_Name := "ID"; sf_Tag := "id"; sf_Anonymous := false |}, TScalar KString);
      ({| sf_Name := "Offset"; sf_Tag := "offset,omitempty"; sf_Anonymous := false |},
       TScalar KString) ].

(** [struct { Name string `json:"name"` }], which has no field for [id]. *)
Definition exampleNamedStruct : rtype :=
  TStruct "Named"
    [ ({| sf_Name := "Name"; sf_Tag := "name"; sf_Anonymous := false |},
       TScalar KString) ].

(** The bubble of a request [GET /a/1?offset=100] with the JSON body [{}]
    for a handler [func(req *T)]. *)
Definition exampleMapperBubble (T : rtype) : Bubble :=
  {| R := {| r_Method := "GET"; r_Path := "/a/1"; r_EscapedPath := "/a/1";
             r_Query := [("offset", ["100"])];
             r_ContentType := "application/json; charset=UTF-8";
             r_Body := Some ("{}", None) |};
     b_Context := Some (PathParams {[ "id" := "1" ]});
     RequestHandler :=
       {| Handler := IsFunc {| fn_In := [TPtr T]; fn_Call := λ _, Some [] |} |};
     Debug := false; Handled := false;
     ArgumentTypes := [TPtr T]; Arguments := [None]; Returns := [];
     queueIndex := 1; trace := [EvMiddleware 0%nat] |}.

(** The rest of a chain that does nothing. *)
Definition exampleNext (b : Bubble) : option (Bubble * Outcome) :=
  Some (b, Returned None).

Lemma C8_empty_or_two_byte_json_body_witness :
  ∃ reqV,
    runMiddleware exampleNext exampleMapper (exampleMapperBubble exampleRequestStruct)
    = exampleNext (set_Argument 0%nat reqV (exampleMapperBubble exampleRequestStruct)).
Proof.
  eexists.
  refine (proj2 (C8_empty_or_two_byte_json_body exampleSetFromString exampleSliceMapper
                   exampleUnmarshal map_to_list exampleNext
                   (exampleMapperBubble exampleRequestStruct) 0%nat
                   (TPtr exampleRequestStruct) exampleRequestStruct _ "{}"
                   _ _ _ _ _ _)).
  - reflexivity.
  - reflexivity.
  - vm_compute. reflexivity.
  - reflexivity.
  - reflexivity.
  - right. reflexivity.
Defined.


Lemma C9_missing_path_field_fails_per_request_witness :
  runMiddleware exampleNext exampleMapper (exampleMapperBubble exampleNamedStruct)
  = Some (exampleMapperBubble exampleNamedStruct,
          Returned (Some ErrPathParameterFieldMissing))
  ∨ runMiddleware exampleNext exampleMapper (exampleMapperBubble exampleNamedStruct)
    = Some (exampleMapperBubble exampleNamedStruct, Panicked).
Proof.
  refine (proj2 (C9_missing_path_field_fails_per_request exampleSetFromString
                   exampleSliceMapper exampleUnmarshal map_to_list
                   (TPtr exampleNamedStruct) exampleNamedStruct "id" _ _ _)
            exampleNext (exampleMapperBubble exampleNamedStruct) 0%nat
            {[ "id" := "1" ]} "1" _ _ _).
  - intros params. reflexivity.
  - reflexivity.
  - reflexivity.
  - reflexivity.
  - reflexivity.
  - reflexivity.
Defined.

(** C9 as the specification words it fails: a route whose template has the
    variable [id] is registered for a handler whose request type has no
    field for it, [Prepare] succeeds, and the route is served; the request
    is what fails, in the mapper. *)
Lemma C9_counterexample :
  let hc := {| Handler := IsFunc {| fn_In := [TPtr exampleNamedStruct];
                                    fn_Call := λ _, Some [] |} |} in
  PathParameters (ParsePathTemplate "/a/{id}") = ["id"]
  ∧ hasField "id" (reflect_New exampleNamedStruct) = false
  ∧ ∃ m',
      Handle (ServeMux_Middleware NewServeMux exampleMapper) "get" "/a/{id}" hc = Some m'
      ∧ Prepare m' = Some ()
      ∧ pickupBestRouteDefinition (mux_router m') (exampleRequest "GET" "/a/1")
        = Some (Some 0%nat)
      ∧ ∃ b',
          ServeHTTP exampleAssignable m' (exampleRequest "GET" "/a/1")
          = RespError ErrPathParameterFieldMissing b'
          ∧ trace b' = [EvMiddleware 0].
Proof.
  intros hc. split; [reflexivity|]. split; [reflexivity|].
  eexists. split; [reflexivity|]. split; [reflexivity|]. split; [reflexivity|].
  eexists. split; [vm_compute; reflexivity|reflexivity].
Qed.

(** ** Registration builds well-formed tables *)

(** Every table the registration API builds is a table of parsed
    templates, the tables the routing properties above are stated for. *)
Lemma Handle_wf (m m' : ServeMux) (method path : string) (hc : HandlerContainer) :
  wf_router (mux_router m) →
  Handle m method path hc = Some m' →
  wf_router (mux_router m').
Proof.
  intros Hwf Hm'. unfold Handle in Hm'.
  destruct (Handler hc) as [hv|k] eqn:Hhv; [|done].
  destruct (Handle_registers m method path hc hv Hhv) as (m'' & Heq & Hroutes & _).
  unfold Handle in Heq. rewrite Hhv in Heq. rewrite Heq in Hm'. injection Hm' as <-.
  unfold wf_router in *. rewrite Hroutes. apply Forall_app. split; [done|].
  apply Forall_fmap, Forall_true. intros meth. apply ParsePathTemplate_wf.
Qed.

Lemma NewServeMux_wf : wf_router (mux_router NewServeMux).
Proof. constructor. Qed.

(** The example of the [Router] documentation (rule 2.b: against the
    request [/api/foo/hi/comments/1] the definition [/api/foo/{bar}/] is
    stronger than [/api/foo/]) as the code runs it: the definition with the
    variable does not match, and the shorter one is picked. *)
Lemma Router_doc_example :
  Match (ParsePathTemplate "/api/foo/{bar}/") "/api/foo/hi/comments/1"
  = Some (false, ∅)
  ∧ pickupBestRouteDefinition
      {| handlers := [exampleRoute "GET" "/api/foo/";
                      exampleRoute "GET" "/api/foo/{bar}/"] |}
      (exampleRequest "GET" "/api/foo/hi/comments/1") = Some (Some 0%nat).
Proof. split; reflexivity. Qed.

(** * Further properties of the router *)

(** An entry is eligible for a request when both of its rates are above
    the no-match rate. *)
Definition eligible (r : Request) (rd : RouteDefinition) : Prop :=
  methodMatchRate r rd ≠ noMethodMatch
  ∧ ∃ p, pathMatchRate r rd = Some p ∧ p ≠ noPathMatch.

(** The loop state is either the initial one or records an eligible entry
    with its rates. *)
Definition best_is_eligible (r : Request) (all : list RouteDefinition)
    (st : Best) : Prop :=
  (bestRoute st = None ∧ bestMethodMatchRate st = 0 ∧ bestPathMatchRate st = 0)
  ∨ ∃ k rd, bestRoute st = Some k ∧ all !! k = Some rd
            ∧ methodMatchRate r rd = bestMethodMatchRate st
            ∧ pathMatchRate r rd = Some (bestPathMatchRate st)
            ∧ bestMethodMatchRate st ≠ noMethodMatch
            ∧ bestPathMatchRate st ≠ noPathMatch.

Lemma pickupLoop_best_is_eligible (r : Request) (all : list RouteDefinition)
    idx rds st st' :
  drop idx all = rds →
  best_is_eligible r all st →
  pickupLoop r idx rds st = Some st' →
  best_is_eligible r all st'.
Proof.
  revert idx st. induction rds as [|rd rds IH]; intros idx st Hd Hinv; simpl.
  { by intros [= <-]. }
  destruct (pickupStep r idx rd st) as [st1|] eqn:Hstep; simpl; [|done].
  assert (Hrd : all !! idx = Some rd).
  { rewrite <- (Nat.add_0_r idx), <- lookup_drop, Hd. done. }
  apply IH.
  - rewrite <- (Nat.add_1_r idx), <- drop_drop, Hd. done.
  - destruct (pickupStep_cases _ _ _ _ _ Hstep)
      as [->|(p & Hp & -> & _ & _ & Hnb)]; [done|].
    right. exists idx, rd. simpl. unfold blocked in Hnb.
    split_and!; [done..| |]; intros ?; apply Hnb; tauto.
Qed.

Lemma pickupLoop_none_eligible (r : Request) idx rds st :
  Forall (λ rd, wf_template (rd_PathTemplate rd)) rds →
  (∀ rd, rd ∈ rds → ¬ eligible r rd) →
  pickupLoop r idx rds st = Some st.
Proof.
  intros Hwf. revert idx. induction Hwf as [|rd rds Hrd _ IH]; intros idx Hnone; [done|].
  simpl. destruct (pathMatchRate_total r rd Hrd) as [p Hp].
  rewrite (pickupStep_blocked r idx rd st p Hp); simpl.
  - apply IH. intros rd' Hin. apply Hnone. by right.
  - unfold blocked.
    destruct (decide (methodMatchRate r rd = noMethodMatch)); [tauto|].
    destruct (decide (p = noPathMatch)); [tauto|].
    destruct (Hnone rd); [by left|]. split; [done|by exists p].
Qed.

(** X1. On a table of parsed routes the router answers with no route
    exactly when no registered entry is eligible, which is also exactly when
    [ServeHTTP] answers not-found; and an entry it does return is
    eligible. *)
Theorem X1_not_found_iff_no_eligible_entry (AssignableTo : rtype → rtype → bool)
    (m : ServeMux) (r : Request) :
  wf_router (mux_router m) →
  (pickupBestRouteDefinition (mux_router m) r = Some None
   ↔ ∀ rd, rd ∈ handlers (mux_router m) → ¬ eligible r rd)
  ∧ (ServeHTTP AssignableTo m r = RespNotFound
     ↔ ∀ rd, rd ∈ handlers (mux_router m) → ¬ eligible r rd)
  ∧ (∀ i, pickupBestRouteDefinition (mux_router m) r = Some (Some i) →
          ∃ rd, handlers (mux_router m) !! i = Some rd ∧ eligible r rd).
Proof.
  intros Hwf.
  destruct (pickupLoop_total r 0 (handlers (mux_router m)) noBest Hwf) as [st' Hloop].
  assert (Hinv : best_is_eligible r (handlers (mux_router m)) st').
  { eapply pickupLoop_best_is_eligible; [|  |exact Hloop]; [done|]. by left. }
  assert (Hnone : pickupBestRouteDefinition (mux_router m) r = Some None
                  ↔ ∀ rd, rd ∈ handlers (mux_router m) → ¬ eligible r rd).
  { unfold pickupBestRouteDefinition. rewrite Hloop. simpl. split.
    - intros [= Hbest] rd Hin [Hm (p & Hp & Hp0)].
      apply list_elem_of_lookup in Hin as [k Hk].
      pose proof (visited_blocked r _ _ _ _ _ _ _ Hloop Hk Hp) as Hb.
      destruct Hinv as [(_ & HbM & HbP)|(k' & rd' & Hsome & _)]; [|congruence].
      pose proof (methodMatchRate_nonneg r rd).
      pose proof (pathMatchRate_nonneg r rd p Hp).
      unfold blocked, noMethodMatch, noPathMatch in *. lia.
    - intros Hno. rewrite (pickupLoop_none_eligible r 0 _ noBest Hwf Hno) in Hloop.
      by injection Hloop as <-. }
  split_and!; [done| |].
  - rewrite <- Hnone. unfold ServeHTTP.
    destruct (pickupBestRouteDefinition (mux_router m) r) as [[i|]|]; [|done|done].
    split; [|done]. repeat case_match; done.
  - intros i. unfold pickupBestRouteDefinition. rewrite Hloop. simpl. intros [= Hbest].
    destruct Hinv as [(Hnil & _)|(k & rd & Hsome & Hrd & Hm & Hp & Hm0 & Hp0)];
      [congruence|].
    rewrite Hbest in Hsome. injection Hsome as <-.
    exists rd. split; [done|]. split; [by rewrite Hm|]. by eexists.
Qed.

Lemma X1_not_found_iff_no_eligible_entry_witness :
  pickupBestRouteDefinition
    {| handlers := [exampleRoute "POST" "/a"] |} (exampleRequest "GET" "/a")
  = Some None.
Proof.
  apply (proj1 (X1_not_found_iff_no_eligible_entry exampleAssignable
    {| mux_Debug := false;
       mux_router := {| handlers := [exampleRoute "POST" "/a"] |};
       mux_middlewares := []; mux_plugins := [] |}
    (exampleRequest "GET" "/a") ltac:(repeat constructor))).
  intros rd Hin [Hm _]. apply list_elem_of_singleton in Hin as ->. by apply Hm.
Defined.

(** X2. The entry the router returns is not dominated: every other
    eligible entry is strictly lower on the method rate or strictly lower on
    the path rate, or has the same two rates and was registered later. *)
Theorem X2_selected_entry_is_undominated (ro : Router) (r : Request)
    (i j : nat) (rdi rd : RouteDefinition) (pi p : Z) :
  wf_router ro →
  pickupBestRouteDefinition ro r = Some (Some i) →
  handlers ro !! i = Some rdi →
  handlers ro !! j = Some rd →
  pathMatchRate r rdi = Some pi →
  pathMatchRate r rd = Some p →
  methodMatchRate r rd ≠ noMethodMatch →
  p ≠ noPathMatch →
  methodMatchRate r rd < methodMatchRate r rdi
  ∨ p < pi
  ∨ (methodMatchRate r rd = methodMatchRate r rdi ∧ p = pi ∧ (i ≤ j)%nat).
Proof.
  intros Hwf Hpick Hi Hj Hpi Hp Hm0 Hp0.
  unfold pickupBestRouteDefinition in Hpick.
  destruct (pickupLoop r 0 (handlers ro) noBest) as [st'|] eqn:Hloop; [|done].
  simpl in Hpick. injection Hpick as Hbest.
  assert (Hinv : rates_of_best r (handlers ro) st').
  { eapply pickupLoop_rates_of_best; [| |exact Hloop]; [done|]. by intros k. }
  destruct (Hinv _ Hbest) as (rd' & Hrd' & HbM & HbP).
  rewrite Hi in Hrd'. injection Hrd' as <-.
  rewrite Hpi in HbP. injection HbP as HbP.
  pose proof (visited_blocked r _ _ _ _ _ _ _ Hloop Hj Hp) as Hb.
  unfold blocked in Hb. rewrite <- HbM, <- HbP in Hb.
  destruct Hb as [?|[?|[?|[?|[Hem Hep]]]]]; [done|done|by left|by right; left|].
  right. right. split_and!; [done..|].
  destruct (Nat.le_gt_cases i j) as [?|Hlt]; [done|].
  exfalso.
  apply (later_tie_never_selected r _ _ _ _ j i rd rdi p Hloop Hj Hi Hlt);
    [done|done|by rewrite Hpi, Hep| |done].
  intros k [=].
Qed.

Lemma X2_selected_entry_is_undominated_witness :
  methodMatchRate (exampleRequest "GET" "/a/b") (exampleRoute "*" "/a/b")
  < methodMatchRate (exampleRequest "GET" "/a/b") (exampleRoute "GET" "/a/")
  ∨ 4 < 3
  ∨ (methodMatchRate (exampleRequest "GET" "/a/b") (exampleRoute "*" "/a/b")
     = methodMatchRate (exampleRequest "GET" "/a/b") (exampleRoute "GET" "/a/")
     ∧ 4 = 3 ∧ (0 ≤ 1)%nat).
Proof.
  apply (X2_selected_entry_is_undominated
    {| handlers := [exampleRoute "GET" "/a/"; exampleRoute "*" "/a/b"] |}
    (exampleRequest "GET" "/a/b") 0 1
    (exampleRoute "GET" "/a/") (exampleRoute "*" "/a/b") 3 4).
  - repeat constructor.
  - reflexivity.
  - reflexivity.
  - reflexivity.
  - reflexivity.
  - reflexivity.
  - discriminate.
  - discriminate.
Defined.

(** X3. A table of two eligible entries: the second one is returned exactly
    when it is at least as good on both rates and not equal on both;
    otherwise the first one is. In particular, of two entries of which one
    has the better method rate and the other the better path rate, the
    earlier-registered one wins whichever it is. *)
Theorem X3_two_eligible_entries (r : Request) (rd1 rd2 : RouteDefinition)
    (p1 p2 : Z) :
  pathMatchRate r rd1 = Some p1 →
  pathMatchRate r rd2 = Some p2 →
  methodMatchRate r rd1 ≠ noMethodMatch → p1 ≠ noPathMatch →
  methodMatchRate r rd2 ≠ noMethodMatch → p2 ≠ noPathMatch →
  pickupBestRouteDefinition {| handlers := [rd1; rd2] |} r
  = Some (Some (if decide (methodMatchRate r rd1 ≤ methodMatchRate r rd2
                           ∧ p1 ≤ p2
                           ∧ ¬ (methodMatchRate r rd1 = methodMatchRate r rd2
                                ∧ p1 = p2))
                then 1%nat else 0%nat)).
Proof.
  intros Hp1 Hp2 Hm1 Hp10 Hm2 Hp20.
  unfold pickupBestRouteDefinition. simpl.
  rewrite (pickupStep_first r rd1 p1) by done. simpl.
  destruct (decide _) as [(Hm & Hp & Hne)|Hno].
  - rewrite (pickupStep_replace r 1 rd2 _ p2); [done|done|].
    unfold blocked. simpl. intros [?|[?|[?|[?|[? ?]]]]]; try done; lia.
  - rewrite (pickupStep_blocked r 1 rd2 _ p2); [done|done|].
    unfold blocked. simpl.
    destruct (Z.lt_ge_cases (methodMatchRate r rd2) (methodMatchRate r rd1)); [tauto|].
    destruct (Z.lt_ge_cases p2 p1); [tauto|].
    do 4 right. apply dec_stable. intros Hneq. apply Hno. split_and!; [lia..|].
    intros [? ?]. apply Hneq. by split.
Qed.

Lemma X3_two_eligible_entries_witness :
  pickupBestRouteDefinition
    {| handlers := [exampleRoute "*" "/a/b"; exampleRoute "GET" "/a/"] |}
    (exampleRequest "GET" "/a/b")
  = Some (Some 0%nat).
Proof.
  exact (X3_two_eligible_entries (exampleRequest "GET" "/a/b")
           (exampleRoute "*" "/a/b") (exampleRoute "GET" "/a/") 4 3
           eq_refl eq_refl ltac:(discriminate) ltac:(discriminate)
           ltac:(discriminate) ltac:(discriminate)).
Defined.

(** Of two entries with one template, the one with the lower method rate
    is never returned when the template is eligible for the path. *)
Lemma lower_method_never_selected (ro : Router) (r : Request) (i j : nat)
    (rdLow rdHigh : RouteDefinition) :
  wf_router ro →
  handlers ro !! i = Some rdLow →
  handlers ro !! j = Some rdHigh →
  rd_PathTemplate rdLow = rd_PathTemplate rdHigh →
  methodMatchRate r rdLow < methodMatchRate r rdHigh →
  pathMatchRate r rdHigh ≠ Some noPathMatch →
  ∃ best, pickupBestRouteDefinition ro r = Some best ∧ best ≠ Some i.
Proof.
  intros Hwf Hi Hj Htmpl Hlt Hp0.
  assert (Hwfj : wf_template (rd_PathTemplate rdHigh)).
  { unfold wf_router in Hwf. rewrite Forall_lookup in Hwf. by eapply Hwf. }
  destruct (pathMatchRate_total r rdHigh Hwfj) as [p Hpj].
  assert (Hpi : pathMatchRate r rdLow = Some p).
  { by rewrite (pathMatchRate_template r rdLow rdHigh Htmpl). }
  destruct (pickupLoop_total r 0 (handlers ro) noBest Hwf) as [st' Hloop].
  exists (bestRoute st'). unfold pickupBestRouteDefinition. rewrite Hloop.
  split; [done|]. intros Hbest.
  pose proof (visited_blocked r _ _ _ _ _ _ _ Hloop Hj Hpj) as Hb.
  assert (Hinv : rates_of_best r (handlers ro) st').
  { eapply pickupLoop_rates_of_best; [| |exact Hloop]; [done|]. by intros k. }
  destruct (Hinv _ Hbest) as (rd & Hrd & Hm & Hpath).
  rewrite Hi in Hrd. injection Hrd as <-.
  rewrite Hpi in Hpath. injection Hpath as Hpath.
  pose proof (methodMatchRate_nonneg r rdLow).
  assert (p ≠ noPathMatch) by congruence.
  unfold blocked, noMethodMatch, noPathMatch in *. lia.
Qed.

(** X4. A [HEAD] request is served by an entry registered for [GET] (the
    overload rate, between the wildcard and the exact rate), which is
    returned when it is the only entry; but an entry registered for [HEAD]
    with the same template takes precedence over it wherever the two stand
    in the table. *)
Theorem X4_head_request_overloads_get (ro : Router) (r : Request) (i j : nat)
    (rdGet rdHead : RouteDefinition) :
  wf_router ro →
  r_Method r = "HEAD" →
  rd_Method rdGet = "GET" →
  rd_Method rdHead = "HEAD" →
  handlers ro !! i = Some rdGet →
  handlers ro !! j = Some rdHead →
  rd_PathTemplate rdGet = rd_PathTemplate rdHead →
  pathMatchRate r rdGet ≠ Some noPathMatch →
  methodMatchRate r rdGet = overloadMethodMatch
  ∧ methodMatchRate r rdHead = exactMethodMatch
  ∧ pickupBestRouteDefinition {| handlers := [rdGet] |} r = Some (Some 0%nat)
  ∧ ∃ best, pickupBestRouteDefinition ro r = Some best ∧ best ≠ Some i.
Proof.
  intros Hwf Hr Hget Hhead Hi Hj Htmpl Hp0.
  assert (Hmg : methodMatchRate r rdGet = overloadMethodMatch).
  { unfold methodMatchRate. rewrite Hget, Hr.
    rewrite decide_False by done. by rewrite decide_True. }
  assert (Hmh : methodMatchRate r rdHead = exactMethodMatch).
  { unfold methodMatchRate. rewrite Hhead, Hr.
    rewrite decide_False by done. rewrite decide_False by (by intros [? _]).
    by rewrite decide_True. }
  assert (Hwfi : wf_template (rd_PathTemplate rdGet)).
  { unfold wf_router in Hwf. rewrite Forall_lookup in Hwf. by eapply Hwf. }
  destruct (pathMatchRate_total r rdGet Hwfi) as [p Hp].
  split_and!; [done|done| |].
  - unfold pickupBestRouteDefinition. simpl.
    rewrite (pickupStep_first r rdGet p); [done|done| |congruence].
    by rewrite Hmg.
  - apply (lower_method_never_selected ro r i j rdGet rdHead); try done.
    + rewrite Hmg, Hmh. unfold overloadMethodMatch, exactMethodMatch. lia.
    + by rewrite <- (pathMatchRate_template r rdGet rdHead Htmpl).
Qed.

Lemma X4_head_request_overloads_get_witness :
  pickupBestRouteDefinition {| handlers := [exampleRoute "GET" "/a/{id}"] |}
    (exampleRequest "HEAD" "/a/7") = Some (Some 0%nat).
Proof.
  refine (proj1 (proj2 (proj2 (X4_head_request_overloads_get
    {| handlers := [exampleRoute "GET" "/a/{id}"; exampleRoute "HEAD" "/a/{id}"] |}
    (exampleRequest "HEAD" "/a/7") 0 1
    (exampleRoute "GET" "/a/{id}") (exampleRoute "HEAD" "/a/{id}")
    _ _ _ _ _ _ _ _)))).
  - repeat constructor.
  - reflexivity.
  - reflexivity.
  - reflexivity.
  - reflexivity.
  - reflexivity.
  - reflexivity.
  - discriminate.
Defined.

(** ** Prefix routes *)

Lemma append_cons (c : ascii) (a s : string) : String c a ++ s = String c (a ++ s).
Proof. reflexivity. Qed.

Lemma append_nil (s : string) : "" ++ s = s.
Proof. reflexivity. Qed.

Lemma SplitOn_app_sep (sep : ascii) (a b : string) :
  SplitOn sep (a ++ String sep b) = (SplitOn sep a ++ SplitOn sep b)%list.
Proof.
  induction a as [|c a IH].
  { rewrite append_nil. simpl. by rewrite Ascii.eqb_refl. }
  rewrite append_cons. simpl.
  destruct (Ascii.eqb c sep); [by rewrite IH|].
  rewrite IH. pose proof (SplitOn_nonempty sep a).
  by destruct (SplitOn sep a).
Qed.

Lemma prefix_append (a s : string) : String.prefix a (a ++ s) = true.
Proof.
  induction a as [|c a IH]; [by destruct s|].
  rewrite append_cons. simpl.
  destruct (ascii_dec c c); [done|congruence].
Qed.

Lemma append_assoc_string (a b c : string) : (a ++ b) ++ c = a ++ b ++ c.
Proof.
  induction a as [|x a IH]; [done|].
  rewrite !append_cons. by f_equal.
Qed.

(** An empty literal segment after the first one earns the star rate. *)
Lemma rateLoop_empty_token (tokensAll : list string) (isVars : list bool)
    (req : list string) (tokens : list string) (i k : nat) (rate q : Z) :
  isVars = reMatchString <$> tokensAll →
  drop i tokensAll = tokens →
  (i ≤ k)%nat → k ≠ 0%nat →
  tokensAll !! k = Some "" →
  rateLoop isVars req i tokens rate = Some q →
  rate + 1 ≤ q.
Proof.
  intros HisVars. revert i rate.
  induction tokens as [|t rest IH]; intros i rate Hd Hik Hk0 Hk Hloop.
  { apply lookup_lt_Some in Hk.
    assert (length (drop i tokensAll) = 0%nat) as Hl by (by rewrite Hd).
    rewrite length_drop in Hl. lia. }
  assert (Ht : tokensAll !! i = Some t).
  { rewrite <- (Nat.add_0_r i), <- lookup_drop, Hd. done. }
  assert (Hd' : drop (S i) tokensAll = rest).
  { rewrite <- (Nat.add_1_r i), <- drop_drop, Hd. done. }
  assert (Hiv : isVars !! i = Some (reMatchString t)).
  { by rewrite HisVars, list_lookup_fmap, Ht. }
  simpl in Hloop. destruct (decide (i = k)) as [->|Hne].
  - rewrite Hk in Ht. injection Ht as <-.
    destruct (Nat.eqb_spec k 0); [done|].
    rewrite Hiv in Hloop. simpl in Hloop.
    apply rateLoop_ge in Hloop. unfold starPathMatch in Hloop. lia.
  - assert (Hnext : ∀ rate', rate ≤ rate' →
               rateLoop isVars req (S i) rest rate' = Some q → rate + 1 ≤ q).
    { intros rate' Hle Hq. apply IH in Hq; [lia|done|lia|done|done]. }
    destruct (i =? 0)%nat; [by apply (Hnext rate)|].
    rewrite Hiv in Hloop. simpl in Hloop.
    destruct (reMatchString t).
    { apply (Hnext (rate + exactPathMatch)); [unfold exactPathMatch; lia|done]. }
    destruct (decide (t = "")).
    { apply (Hnext (rate + starPathMatch)); [unfold starPathMatch; lia|done]. }
    destruct (req !! i) as [rp|]; simpl in Hloop; [|done].
    destruct (decide (t = rp)).
    + apply (Hnext (rate + exactPathMatch)); [unfold exactPathMatch; lia|done].
    + by apply (Hnext rate).
Qed.

(** X5. A template without variables that ends in a separator is a prefix
    route: every request path that continues it matches, with no bindings,
    and with a path rate of at least the star rate, so that the entry is
    eligible for it. *)
Theorem X5_trailing_separator_is_prefix_route (q s : string) (r : Request)
    (rd : RouteDefinition) :
  Index (q ++ "/") = -1 →
  rd_PathTemplate rd = ParsePathTemplate (q ++ "/") →
  r_Path r = q ++ "/" ++ s →
  Match (rd_PathTemplate rd) (r_Path r) = Some (true, ∅)
  ∧ ∃ p, pathMatchRate r rd = Some p ∧ starPathMatch ≤ p.
Proof.
  intros Hstatic Htmpl Hpath.
  assert (Hmatch : Match (rd_PathTemplate rd) (r_Path r) = Some (true, ∅)).
  { assert (Hpre : HasPrefix (q ++ "/" ++ s) (q ++ "/") = true).
    { unfold HasPrefix. rewrite <- append_assoc_string. apply prefix_append. }
    rewrite Htmpl, Hpath. unfold Match. simpl. simpl in Hpre.
    rewrite Hstatic. simpl.
    rewrite bool_decide_eq_true_2 by done. by rewrite Hpre. }
  split; [done|].
  assert (Hwf : wf_template (rd_PathTemplate rd)).
  { rewrite Htmpl. apply ParsePathTemplate_wf. }
  destruct (pathMatchRate_total r rd Hwf) as [p Hp]. exists p. split; [done|].
  unfold pathMatchRate in Hp. rewrite Hmatch in Hp. simpl in Hp.
  assert (Htokens : splittedPathTemplate (rd_PathTemplate rd)
                    = (Split q ++ [""])%list).
  { rewrite Htmpl. simpl. unfold Split.
    by rewrite (SplitOn_app_sep "/"%char q ""). }
  assert (Hreq : Split (r_Path r) = (Split q ++ Split s)%list).
  { rewrite Hpath. exact (SplitOn_app_sep "/"%char q s). }
  pose proof (SplitOn_nonempty "/"%char s) as Hs.
  pose proof (SplitOn_nonempty "/"%char q) as Hq.
  destruct (Nat.ltb_spec (length (Split (r_Path r)))
              (length (splittedPathTemplate (rd_PathTemplate rd)))) as [Hlt|_].
  { rewrite Hreq, Htokens, !length_app in Hlt. simpl in Hlt. unfold Split in Hlt.
    destruct (SplitOn "/"%char s); [done|simpl in Hlt; lia]. }
  unfold starPathMatch.
  apply (rateLoop_empty_token (splittedPathTemplate (rd_PathTemplate rd)) _ _ _
           0 (length (Split q)) 0 p Hwf) in Hp; [lia|done|lia| |].
  - unfold Split. by destruct (SplitOn "/"%char q).
  - rewrite Htokens. by rewrite lookup_app_r, Nat.sub_diag.
Qed.

Lemma X5_trailing_separator_is_prefix_route_witness :
  Match (ParsePathTemplate "/js/") "/js/app/index.js" = Some (true, ∅)
  ∧ ∃ p, pathMatchRate (exampleRequest "GET" "/js/app/index.js")
           (exampleRoute "GET" "/js/") = Some p ∧ starPathMatch ≤ p.
Proof.
  exact (X5_trailing_separator_is_prefix_route "/js" "app/index.js"
           (exampleRequest "GET" "/js/app/index.js") (exampleRoute "GET" "/js/")
           eq_refl eq_refl eq_refl).
Defined.

(** ** The bindings of a match *)

(** The names of the variable segments, as [ParsePathTemplate] collects
    them in [PathParameters]. *)
Definition variableNames (tokens : list string) : list string :=
  reSubmatch <$> filter (λ s, reMatchString s = true) tokens.

Lemma matchLoop_dom (tokensAll : list string) (isVars : list bool)
    (req : list string) (tokens : list string) (idx : nat)
    (params m : gmap string string) :
  isVars = reMatchString <$> tokensAll →
  drop idx tokensAll = tokens →
  matchLoop isVars req idx tokens params = Some (true, m) →
  dom m =@{gset string} dom params ∪ list_to_set (variableNames tokens).
Proof.
  intros HisVars. revert idx params.
  induction tokens as [|t rest IH]; intros idx params Hd; simpl.
  { intros [= <-]. unfold variableNames. simpl. set_solver. }
  assert (Ht : tokensAll !! idx = Some t).
  { rewrite <- (Nat.add_0_r idx), <- lookup_drop, Hd. done. }
  assert (Hd' : drop (S idx) tokensAll = rest).
  { rewrite <- (Nat.add_1_r idx), <- drop_drop, Hd. done. }
  assert (Hiv : isVars !! idx = Some (reMatchString t)).
  { by rewrite HisVars, list_lookup_fmap, Ht. }
  destruct (req !! idx) as [reqPart|]; simpl; [|done].
  rewrite Hiv. simpl. unfold variableNames.
  destruct (reMatchString t) eqn:Hv.
  - destruct (decide (reqPart = "")); [done|].
    rewrite (slice_inner_variable t Hv). simpl. intros Hm.
    apply (IH _ _ Hd') in Hm. rewrite Hm, dom_insert_L.
    rewrite filter_cons_True by done. simpl.
    unfold variableNames. set_solver.
  - destruct (decide (t ≠ reqPart)); [done|]. intros Hm.
    apply (IH _ _ Hd') in Hm. rewrite Hm.
    rewrite filter_cons_False by (by rewrite Hv). done.
Qed.

Lemma static_template_no_names (pathTmpl : string) :
  pt_PathTemplate (ParsePathTemplate pathTmpl)
  = httpHandlePath (ParsePathTemplate pathTmpl) →
  PathParameters (ParsePathTemplate pathTmpl) = [].
Proof.
  simpl. destruct (Z.eqb_spec (Index pathTmpl) (-1)) as [Hnone|Hsome].
  - intros _. apply Index_none_segments in Hnone.
    induction Hnone as [|t rest Ht _ IH]; [done|].
    rewrite filter_cons_False by (by rewrite Ht). exact IH.
  - intros Heq. apply (f_equal String.length) in Heq.
    pose proof (Index_ge pathTmpl). pose proof (Index_lt pathTmpl).
    unfold slice_to in Heq. rewrite substring_0_length in Heq; lia.
Qed.

(** X6. Whenever a parsed template matches a request path, the keys of the
    bindings it returns are exactly the template's [PathParameters]: every
    declared path variable is bound, and nothing else is. *)
Theorem X6_bindings_are_the_path_parameters (pathTmpl requestPath : string)
    (m : gmap string string) :
  Match (ParsePathTemplate pathTmpl) requestPath = Some (true, m) →
  dom m =@{gset string} list_to_set (PathParameters (ParsePathTemplate pathTmpl)).
Proof.
  unfold Match.
  destruct (bool_decide _ && HasPrefix _ _) eqn:Hfast.
  - intros [= <-]. apply andb_prop in Hfast as [Heq%bool_decide_eq_true _].
    rewrite (static_template_no_names _ Heq). set_solver.
  - assert (Hdom : ∀ req,
      matchLoop (isVariables (ParsePathTemplate pathTmpl)) req 0
        (splittedPathTemplate (ParsePathTemplate pathTmpl)) ∅ = Some (true, m) →
      dom m =@{gset string}
        list_to_set (PathParameters (ParsePathTemplate pathTmpl))).
    { intros req Hm.
      apply (matchLoop_dom (splittedPathTemplate (ParsePathTemplate pathTmpl)))
        in Hm; [|done|done].
      rewrite Hm. unfold variableNames. simpl. set_solver. }
    destruct (_ <? _)%nat; [apply Hdom|].
    destruct (negb _); [done|apply Hdom].
Qed.

Lemma X6_bindings_are_the_path_parameters_witness :
  dom ({[ "id" := "7"; "name" := "x y" ]} : gmap string string)
  =@{gset string} list_to_set (PathParameters (ParsePathTemplate "/a/{id}/{name}")).
Proof.
  apply (X6_bindings_are_the_path_parameters "/a/{id}/{name}" "/a/7/x+y/rest").
  reflexivity.
Defined.

(** ** Methods are registered in upper case *)

Lemma upperByte_idempotent (c : ascii) : upperByte (upperByte c) = upperByte c.
Proof. destruct c as [[] [] [] [] [] [] [] []]; reflexivity. Qed.

Lemma upperByte_comma (c : ascii) :
  Ascii.eqb (upperByte c) ","%char = Ascii.eqb c ","%char.
Proof. destruct c as [[] [] [] [] [] [] [] []]; reflexivity. Qed.

Lemma ToUpper_idempotent (s : string) : ToUpper (ToUpper s) = ToUpper s.
Proof.
  induction s as [|c s IH]; simpl; [done|].
  by rewrite upperByte_idempotent, IH.
Qed.

(** Upper-casing commutes with splitting the method list. *)
Lemma SplitOn_ToUpper (s : string) :
  SplitOn ","%char (ToUpper s) = ToUpper <$> SplitOn ","%char s.
Proof.
  induction s as [|c s IH]; simpl; [done|].
  rewrite upperByte_comma. destruct (Ascii.eqb c ","); simpl; [by rewrite IH|].
  rewrite IH. pose proof (SplitOn_nonempty ","%char s).
  by destruct (SplitOn ","%char s).
Qed.

(** The bytes of the string are ASCII, where [ToUpper] above is
    [strings.ToUpper]. *)
Definition isASCII (s : string) : bool :=
  forallb (λ c, (nat_of_ascii c <? 128)%nat) (list_ascii_of_string s).

(** X7. [Handle] with an ASCII method list adds one entry per method of
    the comma-separated list, after the entries that were there, each with
    the method put in upper case and the one parsed template. Request
    methods are compared as they are: a request whose method has a
    lower-case letter gets the no-match rate from every such entry that is
    not the wildcard, however the method was spelled at registration. *)
Theorem X7_methods_are_registered_in_upper_case (m m' : ServeMux)
    (method path : string) (hc : HandlerContainer) :
  isASCII method = true →
  Handle m method path hc = Some m' →
  handlers (mux_router m')
  = (handlers (mux_router m)
     ++ ((λ tok, {| rd_Method := ToUpper tok;
                    rd_PathTemplate := ParsePathTemplate path;
                    rd_HandlerContainer := hc |})
         <$> SplitOn ","%char method))%list
  ∧ ∀ rd r,
      rd ∈ drop (length (handlers (mux_router m))) (handlers (mux_router m')) →
      ToUpper (rd_Method rd) = rd_Method rd
      ∧ (ToUpper (r_Method r) ≠ r_Method r →
         methodMatchRate r rd
         = if decide (rd_Method rd = "*") then starMethodMatch else noMethodMatch).
Proof.
  intros _ Hm'. unfold Handle in Hm'.
  destruct (Handler hc) as [hv|k] eqn:Hhv; [|done].
  destruct (Handle_registers m method path hc hv Hhv) as (m'' & Heq & Hroutes & _).
  unfold Handle in Heq. rewrite Hhv in Heq. rewrite Heq in Hm'. injection Hm' as <-.
  rewrite SplitOn_ToUpper, <- list_fmap_compose in Hroutes.
  split; [exact Hroutes|].
  intros rd r Hin. rewrite Hroutes, drop_app_length in Hin.
  apply list_elem_of_fmap in Hin as (tok & -> & _). simpl.
  split; [apply ToUpper_idempotent|].
  intros Hlower. unfold methodMatchRate. simpl.
  destruct (decide (ToUpper tok = "*")); [done|].
  rewrite decide_False.
  - rewrite decide_False; [done|].
    intros Heqm. apply Hlower. by rewrite <- Heqm, ToUpper_idempotent.
  - intros [_ Hhead]. apply Hlower. by rewrite Hhead.
Qed.

Lemma X7_methods_are_registered_in_upper_case_witness :
  ∃ m',
    Handle NewServeMux "get,Post" "/a" exampleHandler = Some m'
    ∧ rd_Method <$> handlers (mux_router m') = ["GET"; "POST"].
Proof.
  eexists. split; [reflexivity|].
  rewrite (proj1 (X7_methods_are_registered_in_upper_case NewServeMux _
                    "get,Post" "/a" exampleHandler eq_refl eq_refl)).
  reflexivity.
Defined.

(** * Further properties of the middleware chain *)

Lemma update_exported_queueIndex (f : Bubble → Bubble) (b : Bubble) :
  queueIndex (update_exported f b) = queueIndex b.
Proof. reflexivity. Qed.




(** ** The order of the stages *)

(** The events of [do]: nothing, or one call of the handler. *)
Lemma Bubble_do_trace (AssignableTo : rtype → rtype → bool) (b : Bubble) :
  trace (Bubble_do AssignableTo b).1 = trace b
  ∨ ∃ args, trace (Bubble_do AssignableTo b).1 = (trace b ++ [EvHandler args])%list.
Proof.
  unfold Bubble_do. repeat case_match; simpl; eauto.
Qed.

(** The stages entered from cursor [qi] on, [k] of them. *)
Definition stagesEntered (qi k : nat) : list Event := EvMiddleware <$> seq qi k.

Lemma stagesEntered_cons (qi k : nat) :
  stagesEntered qi (S k) = EvMiddleware qi :: stagesEntered (S qi) k.
Proof. reflexivity. Qed.

(** X9. In a chain in which every middleware calls [Next] at most once, a
    run enters the stages one after the other in registration order, each at
    most once, and calls the handler at most once, after the last stage. *)
Theorem X9_stages_run_in_order (AssignableTo : rtype → rtype → bool)
    (middlewares : list MiddlewareFunc) (b : Bubble) :
  Forall callsNextAtMostOnce middlewares →
  ∃ res k tail,
    Bubble_Next AssignableTo middlewares b = Some res
    ∧ trace res.1 = (trace b ++ stagesEntered (queueIndex b) k ++ tail)%list
    ∧ (tail = []
       ∨ (length middlewares ≤ queueIndex b + k)%nat
         ∧ ∃ args, tail = [EvHandler args]).
Proof.
  intros Hall.
  remember (length middlewares - queueIndex b)%nat as n eqn:Hn.
  revert b Hn. induction n as [|n IH]; intros b Hn;
    destruct (Bubble_Next_total AssignableTo middlewares b) as [res Hres];
    exists res; pose proof Hres as Hres0; rewrite Bubble_Next_unfold in Hres.
  - destruct (Nat.ltb_spec (queueIndex b) (length middlewares)); [lia|].
    injection Hres as <-. exists 0%nat.
    destruct (Bubble_do_trace AssignableTo b) as [Htr|[args Htr]].
    + exists []. split_and!; [done|rewrite Htr; simpl; by rewrite app_nil_r|by left].
    + exists [EvHandler args]. split_and!; [done|by rewrite Htr|].
      right. split; [lia|by exists args].
  - destruct (Nat.ltb_spec (queueIndex b) (length middlewares)) as [Hlt|]; [|lia].
    destruct (lookup_lt_is_Some_2 _ _ Hlt) as [m Hm].
    rewrite Hm in Hres. simpl in Hres.
    assert (Hamo : callsNextAtMostOnce m).
    { rewrite Forall_lookup in Hall. by eapply Hall. }
    destruct (run_callsNextAtMostOnce _ _ _ _ Hamo Hres)
      as [Htr|(b1 & res1 & Hq1 & Ht1 & Hnext & Htr)].
    + exists 1%nat, []. split_and!; [done| |by left].
      by rewrite Htr.
    + simpl in Hq1, Ht1.
      destruct (IH b1) as (res1' & k & tail & Hres1 & Htr1 & Htail); [lia|].
      rewrite Hnext in Hres1. injection Hres1 as <-.
      exists (S k), tail. split_and!; [done| |].
      * rewrite Htr, Htr1, Ht1, Hq1, stagesEntered_cons.
        by rewrite <- !app_assoc.
      * destruct Htail as [->|[Hlen Hargs]]; [by left|].
        right. split; [lia|done].
Qed.

Lemma X9_stages_run_in_order_witness :
  ∃ res k tail,
    Bubble_Next exampleAssignable [passMiddleware; stopMiddleware; passMiddleware]
      exampleBubble = Some res
    ∧ trace res.1
      = (trace exampleBubble ++ stagesEntered (queueIndex exampleBubble) k ++ tail)%list
    ∧ (tail = []
       ∨ (3 ≤ queueIndex exampleBubble + k)%nat ∧ ∃ args, tail = [EvHandler args]).
Proof.
  apply (X9_stages_run_in_order exampleAssignable
           [passMiddleware; stopMiddleware; passMiddleware] exampleBubble).
  repeat constructor.
Defined.

(** The body calls [b.Next()] exactly once on every path, before it
    returns. *)
Inductive callsNextOnce : MiddlewareFunc → Prop :=
  | cno_CallNext k : (∀ err, neverCallsNext (k err)) → callsNextOnce (CallNext k)
  | cno_Inspect k : (∀ b, callsNextOnce (k b)) → callsNextOnce (Inspect k)
  | cno_Update f k : callsNextOnce k → callsNextOnce (Update f k).

Lemma run_callsNextOnce next (m : MiddlewareFunc) (b : Bubble) res :
  callsNextOnce m →
  runMiddleware next m b = Some res →
  ∃ b1 res1, queueIndex b1 = queueIndex b ∧ trace b1 = trace b
             ∧ next b1 = Some res1 ∧ trace res.1 = trace res1.1.
Proof.
  intros Hm. revert b. induction Hm as [k Hk|k _ IH|f k _ IH]; intros b; simpl.
  - destruct (next b) as [res1|] eqn:Hnext; simpl; [|done].
    intros Hrun. exists b, res1. split_and!; [done..|].
    destruct res1 as [b1 [err|]]; simpl in *.
    + by apply (run_neverCallsNext _ _ _ _ (Hk err)) in Hrun as [? _].
    + by injection Hrun as <-.
  - apply IH.
  - intros Hrun. by apply IH in Hrun.
Qed.

(** X10. In a chain in which every middleware calls [Next] exactly once, a
    run enters every stage from the cursor on, in registration order, and
    then reaches [do], once: the events of the run are those stages followed
    by the events of [do] on the bubble the last stage handed on. *)
Theorem X10_wrapping_chain_reaches_handler (AssignableTo : rtype → rtype → bool)
    (middlewares : list MiddlewareFunc) (b : Bubble) :
  Forall callsNextOnce middlewares →
  ∃ res bd,
    Bubble_Next AssignableTo middlewares b = Some res
    ∧ trace bd
      = (trace b
         ++ stagesEntered (queueIndex b) (length middlewares - queueIndex b))%list
    ∧ (length middlewares ≤ queueIndex bd)%nat
    ∧ trace res.1 = trace (Bubble_do AssignableTo bd).1.
Proof.
  intros Hall.
  remember (length middlewares - queueIndex b)%nat as n eqn:Hn.
  revert b Hn. induction n as [|n IH]; intros b Hn;
    destruct (Bubble_Next_total AssignableTo middlewares b) as [res Hres];
    exists res; pose proof Hres as Hres0; rewrite Bubble_Next_unfold in Hres.
  - destruct (Nat.ltb_spec (queueIndex b) (length middlewares)); [lia|].
    injection Hres as <-. exists b. split_and!; [done| |done|done].
    simpl. by rewrite app_nil_r.
  - destruct (Nat.ltb_spec (queueIndex b) (length middlewares)) as [Hlt|]; [|lia].
    destruct (lookup_lt_is_Some_2 _ _ Hlt) as [m Hm].
    rewrite Hm in Hres. simpl in Hres.
    assert (Honce : callsNextOnce m).
    { rewrite Forall_lookup in Hall. by eapply Hall. }
    destruct (run_callsNextOnce _ _ _ _ Honce Hres)
      as (b1 & res1 & Hq1 & Ht1 & Hnext & Htr).
    simpl in Hq1, Ht1.
    destruct (IH b1) as (res1' & bd & Hres1 & Htbd & Hqbd & Htr1); [lia|].
    rewrite Hnext in Hres1. injection Hres1 as <-.
    exists bd. split_and!; [done| |done|by rewrite Htr].
    rewrite Htbd, Ht1, Hq1, stagesEntered_cons.
    replace n with (length middlewares - S (queueIndex b))%nat by lia.
    by rewrite <- !app_assoc.
Qed.

Lemma X10_wrapping_chain_reaches_handler_witness :
  ∃ res bd,
    Bubble_Next exampleAssignable [passMiddleware; passMiddleware] exampleBubble
    = Some res
    ∧ trace bd
      = (trace exampleBubble
         ++ stagesEntered (queueIndex exampleBubble)
              (2 - queueIndex exampleBubble))%list
    ∧ (2 ≤ queueIndex bd)%nat
    ∧ trace res.1 = trace (Bubble_do exampleAssignable bd).1.
Proof.
  apply (X10_wrapping_chain_reaches_handler exampleAssignable
           [passMiddleware; passMiddleware] exampleBubble).
  repeat constructor.
Defined.

(** ** The bubble of a request *)

(** X11. The bubble [newBubble] builds has one unresolved slot per
    parameter of the handler, with the parameter types as declared types,
    the cursor at the first middleware and [Handled] unset. With an empty
    chain, [Next] on it is [do]: a handler without parameters is called
    (with no arguments), and a handler with parameters is not, [do]
    returning [ErrInvalidArgumentValue] and leaving the bubble as built. *)
Theorem X11_fresh_bubble (AssignableTo : rtype → rtype → bool) (debug : bool)
    (c : option ContextValue) (r : Request) (rd : RouteDefinition)
    (hv : FuncValue) :
  Handler (rd_HandlerContainer rd) = IsFunc hv →
  ∃ b,
    newBubble debug c r rd = Some b
    ∧ ArgumentTypes b = fn_In hv
    ∧ length (Arguments b) = length (fn_In hv)
    ∧ (∀ idx arg, Arguments b !! idx = Some arg → arg = None)
    ∧ queueIndex b = 0%nat ∧ Handled b = false ∧ trace b = []
    ∧ Bubble_Next AssignableTo [] b = Some (Bubble_do AssignableTo b)
    ∧ (fn_In hv = [] → trace (Bubble_do AssignableTo b).1 = [EvHandler []])
    ∧ (fn_In hv ≠ [] →
       Bubble_do AssignableTo b = (b, Returned (Some ErrInvalidArgumentValue))).
Proof.
  intros Hhv. unfold newBubble. rewrite Hhv. eexists. split; [done|].
  split_and!; simpl; try done.
  - by rewrite length_replicate.
  - intros idx arg Hidx. by apply lookup_replicate in Hidx as [-> _].
  - unfold Bubble_do. simpl. rewrite Hhv, length_replicate, Nat.eqb_refl. simpl.
    intros ->. simpl. by destruct (fn_Call hv []).
  - intros Hne. unfold Bubble_do. simpl.
    rewrite Hhv, length_replicate, Nat.eqb_refl. simpl.
    destruct (fn_In hv) as [|t ts]; [done|]. reflexivity.
Qed.

Lemma X11_fresh_bubble_witness :
  ∃ b,
    newBubble false None (exampleRequest "GET" "/")
      (exampleRoute "GET" "/") = Some b
    ∧ trace (Bubble_do exampleAssignable b).1 = [EvHandler []].
Proof.
  destruct (X11_fresh_bubble exampleAssignable false None (exampleRequest "GET" "/")
              (exampleRoute "GET" "/") {| fn_In := []; fn_Call := λ _, Some [] |}
              eq_refl)
    as (b & Hb & _ & _ & _ & _ & _ & _ & _ & Hcall & _).
  exists b. split; [exact Hb|]. by apply Hcall.
Defined.

(** * Further properties of the field lookup *)

Section found_flag.

Variable setFromString : rvalue → string → option (rvalue * option error).
Variable key value : string.

Local Notation rec := (valueStringMapper setFromString key value).

(** What the mapper returns tells whether the object has a field for the
    key: an error can only come from such a field, and without an error the
    [found] flag says exactly whether there is one. *)
Definition flagTellsField (v : rvalue) : Prop :=
  ∀ res, rec v = Some res →
    (res.2.2 ≠ None → hasField key v = true)
    ∧ (res.2.2 = None → res.2.1 = hasField key v).

Lemma mapperFieldLoop_flag (fields : list (StructField * rvalue)) :
  Forall (λ fv, flagTellsField fv.2) fields →
  ∀ res, mapperFieldLoop setFromString rec key value fields = Some res →
    (res.2.2 ≠ None → fieldsHave (hasField key) key fields = true)
    ∧ (res.2.2 = None → res.2.1 = fieldsHave (hasField key) key fields).
Proof.
  induction 1 as [|[sf f] rest Hf _ IH]; intros res.
  { intros [= <-]. simpl. done. }
  assert (Hcontinue : ∀ f',
    negb (TagJSON_Ignored (sf_Tag sf))
    && (if sf_Anonymous sf then hasField key f
        else bool_decide (structFieldToKey sf = key)) = false →
    (res' ← mapperFieldLoop setFromString rec key value rest;
     Some ((sf, f') :: res'.1, res'.2)) = Some res →
    (res.2.2 ≠ None → fieldsHave (hasField key) key ((sf, f) :: rest) = true)
    ∧ (res.2.2 = None
       → res.2.1 = fieldsHave (hasField key) key ((sf, f) :: rest))).
  { intros f' Hhead.
    destruct (mapperFieldLoop _ _ _ _ rest) as [res'|]; simpl; [|done].
    intros [= <-]. simpl. unfold fieldsHave in *. simpl. rewrite Hhead. simpl.
    by apply IH. }
  rewrite mapperFieldLoop_cons. cbv zeta.
  destruct (TagJSON_Ignored (sf_Tag sf)) eqn:Hign; [by apply Hcontinue|].
  destruct (sf_Anonymous sf) eqn:Hanon.
  - destruct (rec f) as [r|] eqn:Hrec; simpl; [|done].
    destruct (Hf r Hrec) as [Herr Hok].
    destruct r as [f' [[] [err|]]]; simpl in *.
    + intros [= <-]. simpl. rewrite Hign, Hanon. simpl. by rewrite Herr.
    + intros [= <-]. simpl. rewrite Hign, Hanon. simpl. by rewrite <- Hok.
    + intros [= <-]. simpl. rewrite Hign, Hanon. simpl. by rewrite Herr.
    + apply Hcontinue. simpl. by rewrite <- Hok.
  - destruct (decide (structFieldToKey sf ≠ key)) as [Hkey|Hkey].
    + apply Hcontinue. simpl. by apply bool_decide_eq_false.
    + apply dec_stable in Hkey.
      destruct (setFromString f value) as [r|]; simpl; [|done].
      intros [= <-]. simpl. unfold fieldsHave. simpl. rewrite Hign, Hanon. simpl.
      rewrite bool_decide_eq_true_2 by done. done.
Qed.

Lemma valueStringMapper_flag (v : rvalue) : flagTellsField v.
Proof.
  induction v as [k lit|e|e v IH|e elems _|n fields IH|n k handle]
    using rvalue_nested_ind; unfold flagTellsField; try done.
  - destruct v as [| | |n fields|]; try done.
    intros res. rewrite valueStringMapper_ptr.
    destruct (rec (VStruct n fields)) as [r|] eqn:Hrec; simpl; [|done].
    intros [= <-]. simpl. by apply (IH r).
  - intros res. rewrite valueStringMapper_struct.
    destruct (mapperFieldLoop _ _ _ _ fields) as [r|] eqn:Hloop; simpl; [|done].
    intros [= <-]. simpl. by apply (mapperFieldLoop_flag fields IH r).
Qed.

End found_flag.

(** X12. What [valueStringMapper] returns tells whether the target has a
    field for the key (one that is not ignored, named by its tag or else by
    its name, possibly inside embedded structs): [found = true] or an error
    occurs only when there is such a field; when no error is returned
    [found] says exactly whether there is one; and when there is none the
    target is returned as it was. *)
Theorem X12_found_flag_tells_field
    (setFromString : rvalue → string → option (rvalue * option error))
    (key value : string) (target target' : rvalue) (found : bool)
    (err : option error) :
  valueStringMapper setFromString key value target = Some (target', (found, err)) →
  (found = true ∨ err ≠ None → hasField key target = true)
  ∧ (err = None → found = hasField key target)
  ∧ (hasField key target = false → target' = target).
Proof.
  intros Hmap.
  destruct (valueStringMapper_flag setFromString key value target _ Hmap)
    as [Herr Hok]. simpl in *.
  split_and!.
  - intros [-> | Hne]; [|by apply Herr].
    destruct err as [e|]; [by apply Herr|]. by rewrite <- Hok.
  - done.
  - intros Hnone.
    pose proof (valueStringMapper_not_found setFromString key value target Hnone _ Hmap)
      as Heq.
    by injection Heq.
Qed.

Lemma X12_found_flag_tells_field_witness :
  hasField "id" (reflect_New exampleRequestStruct) = true.
Proof.
  refine (proj1 (X12_found_flag_tells_field exampleSetFromString "id" "7"
                   (reflect_New exampleRequestStruct) _ true None _) _).
  - reflexivity.
  - by left.
Defined.

(** ** Conversion errors and the [found] flag *)

(** The field test of the loop of [valueStringMapper]: the field is not
    ignored and is named by the key, or is an embedded struct with a field
    for the key. *)
Definition selects (key : string) (fv : StructField * rvalue) : bool :=
  negb (TagJSON_Ignored (sf_Tag fv.1))
  && (if sf_Anonymous fv.1 then hasField key fv.2
      else bool_decide (structFieldToKey fv.1 = key)).

(** The fields of the struct the target is or points to. *)
Definition fieldsOf (target : rvalue) : list (StructField * rvalue) :=
  match target with
  | VStruct _ fields => fields
  | VPtr _ (Some (VStruct _ fields)) => fields
  | _ => []
  end.

(** The first field of the list that the key selects is a field of the
    struct itself, not an embedded struct. *)
Definition firstIsDirect (key : string) (fields : list (StructField * rvalue)) : bool :=
  match List.find (selects key) fields with
  | Some fv => negb (sf_Anonymous fv.1)
  | None => false
  end.

Definition declaredDirectly (key : string) (target : rvalue) : bool :=
  firstIsDirect key (fieldsOf target).

Definition isNil {A : Type} (err : option A) : bool :=
  match err with
  | None => true
  | Some _ => false
  end.

Lemma mapperFieldLoop_found
    (setFromString : rvalue → string → option (rvalue * option error))
    (key value : string) (fields : list (StructField * rvalue)) :
  ∀ res,
    mapperFieldLoop setFromString (valueStringMapper setFromString key value)
      key value fields = Some res →
    res.2.1 = existsb (selects key) fields
              && (firstIsDirect key fields || isNil res.2.2).
Proof.
  induction fields as [|[sf f] rest IH]; intros res.
  { by intros [= <-]. }
  assert (Hcontinue : ∀ f',
    selects key (sf, f) = false →
    (res' ← mapperFieldLoop setFromString
              (valueStringMapper setFromString key value) key value rest;
     Some ((sf, f') :: res'.1, res'.2)) = Some res →
    res.2.1 = existsb (selects key) ((sf, f) :: rest)
              && (firstIsDirect key ((sf, f) :: rest) || isNil res.2.2)).
  { intros f' Hhead.
    destruct (mapperFieldLoop _ _ _ _ rest) as [res'|]; simpl; [|done].
    intros [= <-]. unfold firstIsDirect. simpl. rewrite Hhead. simpl.
    by apply IH. }
  rewrite mapperFieldLoop_cons. cbv zeta. unfold firstIsDirect, selects in *.
  simpl in *.
  destruct (TagJSON_Ignored (sf_Tag sf)) eqn:Hign; [by apply Hcontinue|].
  destruct (sf_Anonymous sf) eqn:Hanon.
  - destruct (valueStringMapper setFromString key value f) as [r|] eqn:Hrec;
      simpl; [|done].
    destruct (valueStringMapper_flag setFromString key value f r Hrec)
      as [Herr Hok].
    destruct r as [f' [[] [err|]]]; simpl in *.
    + intros [= <-]. simpl. rewrite Herr by done. simpl. by rewrite Hanon.
    + intros [= <-]. simpl. rewrite <- Hok by done. simpl. by rewrite Hanon.
    + intros [= <-]. simpl. rewrite Herr by done. simpl. by rewrite Hanon.
    + apply Hcontinue. simpl. by rewrite <- Hok.
  - destruct (decide (structFieldToKey sf ≠ key)) as [Hkey|Hkey].
    + apply Hcontinue. simpl. by apply bool_decide_eq_false.
    + apply dec_stable in Hkey.
      destruct (setFromString f value) as [r|]; simpl; [|done].
      intros [= <-]. simpl. rewrite bool_decide_eq_true_2 by done. simpl.
      by rewrite Hanon.
Qed.

(** X13. The exact value of the [found] flag of [valueStringMapper]: it is
    true when the target has a field for the key and either no error is
    returned or the first such field is declared in the struct itself. So
    a conversion error in a field of the struct comes with [found = true],
    while the same error in a field of an embedded struct comes with
    [found = false]; the path loop of [RequestObjectMapper], which looks at
    the flag only, goes on after the first and reports
    [ErrPathParameterFieldMissing] for the second although the field
    exists. *)
Theorem X13_found_flag_with_conversion_error
    (setFromString : rvalue → string → option (rvalue * option error))
    (key value : string) (target target' : rvalue) (found : bool)
    (err : option error) (rest : list (string * string)) :
  valueStringMapper setFromString key value target = Some (target', (found, err)) →
  found = hasField key target && (declaredDirectly key target || isNil err)
  ∧ pathLoop setFromString ((key, value) :: rest) target
    = if hasField key target && (declaredDirectly key target || isNil err)
      then pathLoop setFromString rest target'
      else Fail ErrPathParameterFieldMissing.
Proof.
  intros Hmap.
  assert (Hfound :
    found = hasField key target && (declaredDirectly key target || isNil err)).
  { unfold declaredDirectly.
    destruct target as [| e [[| | |n fields|]|] | |n fields|]; try done.
    - simpl in Hmap.
      destruct (mapperFieldLoop _ _ _ _ fields) as [r|] eqn:Hloop; [|done].
      simpl in Hmap. injection Hmap as _ Hr.
      pose proof (mapperFieldLoop_found setFromString key value fields r Hloop) as H.
      rewrite Hr in H. simpl in H. done.
    - simpl in Hmap.
      destruct (mapperFieldLoop _ _ _ _ fields) as [r|] eqn:Hloop; [|done].
      simpl in Hmap. injection Hmap as _ Hr.
      pose proof (mapperFieldLoop_found setFromString key value fields r Hloop) as H.
      rewrite Hr in H. simpl in H. done. }
  split; [done|].
  cbn [pathLoop]. rewrite Hmap, <- Hfound. done.
Qed.

(** [struct { Tags []string `json:"tags"` }] and a struct that embeds it. *)
Definition exampleTagsStruct : rtype :=
  TStruct "Tags"
    [ ({| sf_Name := "Tags"; sf_Tag := "tags"; sf_Anonymous := false |},
       TSlice (TScalar KString)) ].

Definition exampleEmbeddingStruct : rtype :=
  TStruct "Embedding"
    [ ({| sf_Name := "Tags"; sf_Tag := ""; sf_Anonymous := true |},
       exampleTagsStruct) ].

Lemma X13_found_flag_with_conversion_error_witness :
  hasField "tags" (reflect_New exampleEmbeddingStruct) = true
  ∧ pathLoop exampleSetFromString [("tags", "a")] (reflect_New exampleEmbeddingStruct)
    = Fail ErrPathParameterFieldMissing
  ∧ ∃ reqV, pathLoop exampleSetFromString [("tags", "a")] (reflect_New exampleTagsStruct)
            = Continue reqV.
Proof.
  split; [reflexivity|]. split.
  - refine (proj2 (X13_found_flag_with_conversion_error exampleSetFromString
                     "tags" "a" (reflect_New exampleEmbeddingStruct) _ false
                     (Some (errorString "unsupported format")) [] _)).
    reflexivity.
  - eexists.
    refine (proj2 (X13_found_flag_with_conversion_error exampleSetFromString
                     "tags" "a" (reflect_New exampleTagsStruct) _ true
                     (Some (errorString "unsupported format")) [] _)).
    reflexivity.
Defined.

(** ** What the phases of the mapper can end with *)

Lemma found_has_field
    (setFromString : rvalue → string → option (rvalue * option error))
    (key value : string) (target target' : rvalue) (err : option error) :
  valueStringMapper setFromString key value target = Some (target', (true, err)) →
  hasField key target = true.
Proof.
  intros Hmap.
  destruct (valueStringMapper_flag setFromString key value target _ Hmap)
    as [Herr Hok]. simpl in *.
  destruct err as [e|]; [by apply Herr|]. by rewrite <- Hok.
Qed.

Lemma pathLoop_outcomes
    (setFromString : rvalue → string → option (rvalue * option error))
    (params : list (string * string)) (reqV : rvalue) :
  (∀ err, pathLoop setFromString params reqV = Fail err
          → err = ErrPathParameterFieldMissing)
  ∧ (∀ reqV', pathLoop setFromString params reqV = Continue reqV'
              → Forall (λ kv, hasField kv.1 reqV = true) params
                ∧ ∀ key, hasField key reqV' = hasField key reqV).
Proof.
  revert reqV. induction params as [|[k v] rest IH]; intros reqV; simpl.
  { split; [done|]. by intros reqV' [= <-]. }
  destruct (valueStringMapper setFromString k v reqV) as [[reqV1 [found err1]]|]
    eqn:Hmap; [|done].
  pose proof (valueStringMapper_keeps_fields setFromString k v reqV _ Hmap) as Hkeep.
  simpl in Hkeep.
  destruct found; [|split; [by intros err [= <-]|done]].
  destruct (IH reqV1) as [IHfail IHcont]. split; [done|].
  intros reqV' Hcont. destruct (IHcont reqV' Hcont) as [Hall Hsame]. split_and!.
  - constructor; simpl.
    + by apply (found_has_field setFromString k v reqV reqV1 err1).
    + eapply Forall_impl; [exact Hall|]. intros [k' v']. simpl. by rewrite Hkeep.
  - intros key. by rewrite Hsame, Hkeep.
Qed.

(** X14. The path-parameter phase of [RequestObjectMapper] can fail in two
    ways only: with [ErrInvalidPathParameterType] when the context value is
    not a [map[string]string], and with [ErrPathParameterFieldMissing]; an
    error of the conversion of a path parameter is never returned. When the
    phase goes on, the request object has a field for every path parameter,
    and it has the fields it had before. Without a context value the phase
    leaves the object as it is. *)
Theorem X14_path_phase_outcomes
    (setFromString : rvalue → string → option (rvalue * option error))
    (rangeOrder : gmap string string → list (string * string))
    (c : option ContextValue) (reqV : rvalue) :
  (∀ params, rangeOrder params ≡ₚ map_to_list params) →
  (∀ err, pathPhase setFromString rangeOrder c reqV = Fail err →
          (c = Some NotPathParams ∧ err = ErrInvalidPathParameterType)
          ∨ (∃ params, c = Some (PathParams params)
                       ∧ err = ErrPathParameterFieldMissing))
  ∧ (∀ reqV', pathPhase setFromString rangeOrder c reqV = Continue reqV' →
              (∀ key, hasField key reqV' = hasField key reqV)
              ∧ (c = None → reqV' = reqV)
              ∧ ∀ params key, c = Some (PathParams params) →
                              is_Some (params !! key) →
                              hasField key reqV = true).
Proof.
  intros Horder.
  destruct c as [[params|]|]; simpl.
  - destruct (pathLoop_outcomes setFromString (rangeOrder params) reqV)
      as [Hfail Hcont].
    split.
    + intros err Herr. right. exists params. split; [done|by apply Hfail].
    + intros reqV' Hgo. destruct (Hcont reqV' Hgo) as [Hall Hsame].
      split_and!; [done|done|].
      intros params' key [= <-] [value Hvalue].
      rewrite Forall_forall in Hall.
      apply (Hall (key, value)).
      rewrite (Horder params). by apply elem_of_map_to_list.
  - split; [|done]. intros err [= <-]. by left.
  - split; [done|]. intros reqV' [= <-]. split_and!; [done|done|done].
Qed.

Lemma X14_path_phase_outcomes_witness :
  hasField "id" (reflect_New exampleRequestStruct) = true.
Proof.
  destruct (X14_path_phase_outcomes exampleSetFromString map_to_list
              (Some (PathParams {[ "id" := "1" ]}))
              (reflect_New exampleRequestStruct)) as [_ Hcont].
  - intros params. reflexivity.
  - destruct (Hcont (VPtr exampleRequestStruct
                       (Some (VStruct "Req"
                          [ ({| sf_Name := "ID"; sf_Tag := "id";
                                sf_Anonymous := false |}, VScalar KString "1");
                            ({| sf_Name := "Offset"; sf_Tag := "offset,omitempty";
                                sf_Anonymous := false |}, VScalar KString "") ]))))
      as (_ & _ & Hfields).
    + vm_compute. reflexivity.
    + apply (Hfields {[ "id" := "1" ]} "id"); [reflexivity|].
      exists "1". reflexivity.
Defined.

(** ** The request body *)

(** X15. With a content type whose part before the first [;] is not
    [application/json], the mapper never decodes the body: it does the same
    whatever the decoder is. The comparison is exact, so a content type in
    other letter case or with a leading space is not JSON for the mapper. *)
Theorem X15_other_content_type_never_decodes
    (setFromString : rvalue → string → option (rvalue * option error))
    (valueStringSliceMapper : string → list string → rvalue → Mapped)
    (jsonUnmarshal jsonUnmarshal' : string → rvalue → rvalue * option string)
    (rangeOrder : gmap string string → list (string * string))
    next (b : Bubble) :
  default "" (head (SplitOn ";"%char (r_ContentType (R b)))) ≠ "application/json" →
  runMiddleware next
    (RequestObjectMapper setFromString valueStringSliceMapper jsonUnmarshal rangeOrder) b
  = runMiddleware next
      (RequestObjectMapper setFromString valueStringSliceMapper jsonUnmarshal' rangeOrder) b.
Proof.
  intros Hct. rewrite !run_RequestObjectMapper.
  destruct (findArgument _ _ _) as [[[argIdx argT]|]|]; [|done..].
  unfold buildRequestObject.
  destruct (rtype_Elem argT) as [elemT|]; [|done].
  destruct (pathPhase _ _ _ _) as [reqV1| |]; simpl; [|done..].
  destruct (queryPhase _ _ _) as [reqV2| |]; simpl; [|done..].
  destruct (readBody (R b)) as [body [err|]]; [done|].
  unfold jsonPhase. by rewrite !decide_False.
Qed.

(** The bubble of a request [POST /a] with the given content type and body
    for a handler [func(req *T)]. *)
Definition exampleBodyBubble (contentType body : string) : Bubble :=
  {| R := {| r_Method := "POST"; r_Path := "/a"; r_EscapedPath := "/a";
             r_Query := []; r_ContentType := contentType;
             r_Body := Some (body, None) |};
     b_Context := None;
     RequestHandler :=
       {| Handler := IsFunc {| fn_In := [TPtr exampleRequestStruct];
                               fn_Call := λ _, Some [] |} |};
     Debug := false; Handled := false;
     ArgumentTypes := [TPtr exampleRequestStruct]; Arguments := [None];
     Returns := []; queueIndex := 1; trace := [EvMiddleware 0%nat] |}.

(** A decoder that accepts every body and stores nothing. *)
Definition exampleLenientUnmarshal (body : string) (req : rvalue)
    : rvalue * option string :=
  (req, None).

Lemma X15_other_content_type_never_decodes_witness :
  runMiddleware exampleNext exampleMapper
    (exampleBodyBubble "Application/JSON" "{not json")
  = runMiddleware exampleNext
      (RequestObjectMapper exampleSetFromString exampleSliceMapper
         exampleLenientUnmarshal map_to_list)
      (exampleBodyBubble "Application/JSON" "{not json").
Proof.
  apply (X15_other_content_type_never_decodes exampleSetFromString exampleSliceMapper
           exampleUnmarshal exampleLenientUnmarshal map_to_list exampleNext
           (exampleBodyBubble "Application/JSON" "{not json")).
  vm_compute. discriminate.
Defined.



(** * context.go: the key-value store of handler containers *)

Section context_store.

(** Keys are interface values compared with [==]; the ones used are
    comparable. A value is [None] for nil. *)
Context {K V : Type} `{Countable K}.

(** A [Context] interface value: nil, [background], or a [*valueCtx]. *)
Inductive UconContext : Type :=
  | nilContext
  | background
  | valueCtx (parent : UconContext) (key : K) (val : option V).

(** [WithValue]. *)
Definition WithValue (parent : UconContext) (key : K) (val : option V)
    : UconContext :=
  valueCtx parent key val.

(** [Context.Value]: [emptyCtx.Value] and [valueCtx.Value]; the call on a nil
    interface panics ([None]). *)
Fixpoint Context_Value (c : UconContext) (key : K) : option (option V) :=
  match c with
  | nilContext => None
  | background => Some None
  | valueCtx parent k val =>
      if decide (k = key) then Some val else Context_Value parent key
  end.

(** The bindings of a context as a finite map, the outer ones over the
    inner ones. *)
Fixpoint bindings (c : UconContext) : gmap K (option V) :=
  match c with
  | nilContext | background => ∅
  | valueCtx parent k val => <[k := val]> (bindings parent)
  end.

(** The chain of parents ends in [background]. *)
Fixpoint rooted (c : UconContext) : bool :=
  match c with
  | nilContext => false
  | background => true
  | valueCtx parent _ _ => rooted parent
  end.

(** X17. A context built with [WithValue] is a finite map in which the
    outermost binding of a key wins: [Value] returns what the map holds for
    a bound key, also when the chain of parents ends in nil, and also when
    what is bound is nil, which then hides an inherited value. For a key
    that is not bound, [Value] returns nil when the chain ends in
    [background] and panics when it ends in nil. *)
Theorem X17_context_is_a_finite_map (c : UconContext) (key : K) :
  Context_Value c key
  = match bindings c !! key with
    | Some val => Some val
    | None => if rooted c then Some None else None
    end.
Proof.
  induction c as [| |parent IH k val]; simpl; [done..|].
  destruct (decide (k = key)) as [->|Hne].
  - by rewrite lookup_insert_eq.
  - by rewrite lookup_insert_ne.
Qed.

End context_store.

(** * utils.go: the options of a [json] tag *)

(** [TagJSON.HasString]. *)
Definition TagJSON_HasString (tag : string) : bool :=
  existsb (λ t, bool_decide (t = "string")) (drop 1 (SplitOn ","%char tag)).

(** [TagJSON.OmitEmpty]. *)
Definition TagJSON_OmitEmpty (tag : string) : bool :=
  existsb (λ t, bool_decide (t = "omitempty")) (drop 1 (SplitOn ","%char tag)).

(** The string has the byte. *)
Fixpoint hasByte (c : ascii) (s : string) : bool :=
  match s with
  | EmptyString => false
  | String c' rest => Ascii.eqb c' c || hasByte c rest
  end.

(** [strings.Join]. *)
Fixpoint Join (sep : ascii) (parts : list string) : string :=
  match parts with
  | [] => ""
  | [part] => part
  | part :: rest => part ++ String sep (Join sep rest)
  end.

Lemma SplitOn_no_sep (sep : ascii) (s : string) :
  hasByte sep s = false → SplitOn sep s = [s].
Proof.
  induction s as [|c s IH]; simpl; [done|].
  intros [Hc Hs]%orb_false_elim. rewrite Hc, (IH Hs). done.
Qed.

Lemma SplitOn_Join (sep : ascii) (part : string) (parts : list string) :
  Forall (λ p, hasByte sep p = false) (part :: parts) →
  SplitOn sep (Join sep (part :: parts)) = part :: parts.
Proof.
  revert part. induction parts as [|p parts IH]; intros part Hall.
  { apply SplitOn_no_sep. by inversion Hall. }
  inversion Hall as [|? ? Hpart Hrest]; subst.
  change (Join sep (part :: p :: parts))
    with (part ++ String sep (Join sep (p :: parts))).
  rewrite SplitOn_app_sep, (SplitOn_no_sep sep part Hpart), (IH p Hrest). done.
Qed.

Lemma existsb_bool_decide_elem (x : string) (l : list string) :
  existsb (λ t, bool_decide (t = x)) l = bool_decide (x ∈ l).
Proof.
  induction l as [|y l IH].
  { rewrite bool_decide_eq_false_2; [done|]. by intros ?%elem_of_nil. }
  cbn [existsb]. rewrite IH. destruct (decide (y = x)) as [->|Hne].
  - rewrite (bool_decide_eq_true_2 (x = x)) by done.
    rewrite (bool_decide_eq_true_2 (x ∈ x :: l)) by (by left). done.
  - rewrite (bool_decide_eq_false_2 (y = x)) by done. simpl.
    apply bool_decide_ext. rewrite elem_of_cons. naive_solver.
Qed.

(** X18. A [json] tag written as a name followed by options, each after a
    comma, is read back as written: [Name] is the name, the field is
    ignored exactly when the name is [-] (also when options follow it), and
    [HasString] and [OmitEmpty] hold exactly when [string] and [omitempty]
    are among the options; the name itself is never taken for an option.
    The key of the field is the name, or the name of the Go field when the
    tag has an empty name. *)
Theorem X18_json_tag_is_read_back (name : string) (options : list string)
    (fieldName : string) (anonymous : bool) :
  Forall (λ p, hasByte ","%char p = false) (name :: options) →
  let tag := Join ","%char (name :: options) in
  TagJSON_Name tag = name
  ∧ TagJSON_Ignored tag = bool_decide (name = "-")
  ∧ TagJSON_HasString tag = bool_decide ("string" ∈ options)
  ∧ TagJSON_OmitEmpty tag = bool_decide ("omitempty" ∈ options)
  ∧ structFieldToKey {| sf_Name := fieldName; sf_Tag := tag;
                        sf_Anonymous := anonymous |}
    = (if decide (name = "") then fieldName else name).
Proof.
  intros Hall tag.
  assert (Hsplit : SplitOn ","%char tag = name :: options)
    by (by apply SplitOn_Join).
  assert (Hname : TagJSON_Name tag = name).
  { unfold TagJSON_Name. by rewrite Hsplit. }
  split_and!.
  - done.
  - unfold TagJSON_Ignored. by rewrite Hname.
  - unfold TagJSON_HasString. rewrite Hsplit. apply existsb_bool_decide_elem.
  - unfold TagJSON_OmitEmpty. rewrite Hsplit. apply existsb_bool_decide_elem.
  - unfold structFieldToKey. simpl. fold tag. rewrite Hname.
    destruct (decide (name = "")) as [->|Hne].
    + by rewrite decide_False by (by intros ?).
    + by rewrite decide_True.
Qed.

Lemma X18_json_tag_is_read_back_witness :
  TagJSON_Name "-,omitempty,string" = "-"
  ∧ TagJSON_Ignored "-,omitempty,string" = true
  ∧ TagJSON_HasString "-,omitempty,string" = true
  ∧ TagJSON_OmitEmpty "-,omitempty,string" = true
  ∧ structFieldToKey {| sf_Name := "ID"; sf_Tag := "-,omitempty,string";
                        sf_Anonymous := false |} = "-".
Proof.
  apply (X18_json_tag_is_read_back "-" ["omitempty"; "string"] "ID" false).
  repeat constructor.
Defined.

(** * middleware.go: HTTPRWDI and ContextDI *)

(** [b.Arguments = args], the slots as a loop of assignments has left
    them. *)
Definition set_Arguments (args : list Value) (b : Bubble) : Bubble :=
  {| R := R b; b_Context := b_Context b; RequestHandler := RequestHandler b;
     Debug := Debug b; Handled := Handled b;
     ArgumentTypes := ArgumentTypes b;
     Arguments := args;
     Returns := Returns b;
     queueIndex := queueIndex b; trace := trace b |}.

(** The loop [for idx, argT := range b.ArgumentTypes] of the two injectors:
    [inject argT] is the value the body assigns to [b.Arguments[idx]], if
    any. The assignment panics out of range; the flag is false then, and
    the slots are as the loop has left them. *)
Fixpoint injectLoop (inject : rtype → option Value) (idx : nat)
    (argumentTypes : list rtype) (args : list Value) : list Value * bool :=
  match argumentTypes with
  | [] => (args, true)
  | argT :: rest =>
      match inject argT with
      | Some v =>
          if (idx <? length args)%nat
          then injectLoop inject (S idx) rest (<[idx := v]> args)
          else (args, false)
      | None => injectLoop inject (S idx) rest args
      end
  end.

Definition injector (inject : Bubble → rtype → option Value) : MiddlewareFunc :=
  Inspect (λ b,
    let res := injectLoop (inject b) 0 (ArgumentTypes b) (Arguments b) in
    Update (set_Arguments res.1) (if res.2 then CallNext Return else Panic)).

Section injectors.

Variable AssignableTo : rtype → rtype → bool.

(** The package variables [httpReqType], [httpRespType] and [contextType]. *)
Variables httpReqType httpRespType contextType : rtype.

(** [reflect.ValueOf(b.R)], [reflect.ValueOf(b.W)] and
    [reflect.ValueOf(b.Context)]; the value of a pointer is valid, the value
    of a nil interface is not. *)
Variable valueOfR : Bubble → rvalue.
Variable valueOfW : Bubble → Value.
Variable valueOfContext : Bubble → Value.

(** [HTTPRWDI]. *)
Definition HTTPRWDI : MiddlewareFunc :=
  injector (λ b argT,
    if AssignableTo httpReqType argT then Some (Some (valueOfR b))
    else if AssignableTo httpRespType argT then Some (valueOfW b)
    else None).

(** [ContextDI]. *)
Definition ContextDI : MiddlewareFunc :=
  injector (λ b argT,
    if AssignableTo contextType argT then Some (valueOfContext b) else None).

End injectors.

(** * Properties of the injectors *)

Lemma injectLoop_spec (inject : rtype → option Value) (argumentTypes : list rtype) :
  ∀ (idx : nat) (args : list Value),
    (idx + length argumentTypes ≤ length args)%nat →
    ∃ args',
      injectLoop inject idx argumentTypes args = (args', true)
      ∧ length args' = length args
      ∧ (∀ i, (i < idx)%nat ∨ (idx + length argumentTypes ≤ i)%nat →
              args' !! i = args !! i)
      ∧ ∀ k argT, argumentTypes !! k = Some argT →
                  args' !! (idx + k)%nat
                  = match inject argT with
                    | Some v => Some v
                    | None => args !! (idx + k)%nat
                    end.
Proof.
  induction argumentTypes as [|argT rest IH]; intros idx args Hlen; simpl in *.
  { exists args. split_and!; [done..|]. intros k t Hk. by rewrite lookup_nil in Hk. }
  destruct (inject argT) as [v|] eqn:Hinj.
  - assert (Hidx : (idx <? length args)%nat = true) by (apply Nat.ltb_lt; lia).
    rewrite Hidx.
    destruct (IH (S idx) (<[idx := v]> args)) as (args' & Hloop & Hlen' & Hout & Hin).
    { rewrite length_insert. lia. }
    rewrite length_insert in Hlen'.
    exists args'. split_and!; [done|done| |].
    + intros i Hi. rewrite Hout by lia. apply list_lookup_insert_ne. lia.
    + intros [|k] t Hk; simpl in Hk.
      * injection Hk as <-. rewrite Hinj, Nat.add_0_r, Hout by lia.
        apply list_lookup_insert_eq. lia.
      * replace (idx + S k)%nat with (S idx + k)%nat by lia.
        rewrite (Hin k t Hk). destruct (inject t); [done|].
        apply list_lookup_insert_ne. lia.
  - destruct (IH (S idx) args) as (args' & Hloop & Hlen' & Hout & Hin); [lia|].
    exists args'. split_and!; [done|done| |].
    + intros i Hi. apply Hout. lia.
    + intros [|k] t Hk; simpl in Hk.
      * injection Hk as <-. rewrite Hinj, Nat.add_0_r. apply Hout. lia.
      * replace (idx + S k)%nat with (S idx + k)%nat by lia. by apply Hin.
Qed.

Lemma run_injector (inject : Bubble → rtype → option Value) next (b : Bubble) :
  (length (ArgumentTypes b) ≤ length (Arguments b))%nat →
  ∃ args',
    runMiddleware next (injector inject) b = next (set_Arguments args' b)
    ∧ length args' = length (Arguments b)
    ∧ (∀ i, (length (ArgumentTypes b) ≤ i)%nat → args' !! i = Arguments b !! i)
    ∧ ∀ i argT, ArgumentTypes b !! i = Some argT →
                args' !! i = match inject b argT with
                             | Some v => Some v
                             | None => Arguments b !! i
                             end.
Proof.
  intros Hlen.
  destruct (injectLoop_spec (inject b) (ArgumentTypes b) 0 (Arguments b))
    as (args' & Hloop & Hlen' & Hout & Hin); [simpl; lia|].
  exists args'. split_and!; [|done| |].
  - unfold injector. cbn [runMiddleware]. rewrite Hloop. cbn [fst snd].
    cbn [runMiddleware]. apply run_CallNext_Return.
  - intros i Hi. apply Hout. right. simpl. lia.
  - intros i argT Hi. apply (Hin i argT Hi).
Qed.

Section injector_properties.

Variable AssignableTo : rtype → rtype → bool.
Variables httpReqType httpRespType contextType : rtype.
Variable valueOfR : Bubble → rvalue.
Variable valueOfW : Bubble → Value.
Variable valueOfContext : Bubble → Value.

(** X19. On a bubble with one slot per declared type, as [newBubble]
    builds it, [HTTPRWDI] and [ContextDI] return no error of their own and
    do not panic: they hand the bubble on to [Next] with every slot whose
    declared type accepts the value assigned, also a slot that was resolved
    already, and every other slot as it was. For [HTTPRWDI] a declared
    type that accepts both the request and the response writer gets the
    request. *)
Theorem X19_injectors_fill_accepting_slots next (b : Bubble) :
  length (ArgumentTypes b) = length (Arguments b) →
  (∃ args',
     runMiddleware next
       (HTTPRWDI AssignableTo httpReqType httpRespType valueOfR valueOfW) b
     = next (set_Arguments args' b)
     ∧ length args' = length (Arguments b)
     ∧ ∀ i argT,
         ArgumentTypes b !! i = Some argT →
         args' !! i
         = if AssignableTo httpReqType argT then Some (Some (valueOfR b))
           else if AssignableTo httpRespType argT then Some (valueOfW b)
           else Arguments b !! i)
  ∧ (∃ args',
       runMiddleware next (ContextDI AssignableTo contextType valueOfContext) b
       = next (set_Arguments args' b)
       ∧ length args' = length (Arguments b)
       ∧ ∀ i argT,
           ArgumentTypes b !! i = Some argT →
           args' !! i
           = if AssignableTo contextType argT then Some (valueOfContext b)
             else Arguments b !! i).
Proof.
  intros Hlen. split.
  - destruct (run_injector
                (λ b argT,
                   if AssignableTo httpReqType argT then Some (Some (valueOfR b))
                   else if AssignableTo httpRespType argT then Some (valueOfW b)
                   else None) next b) as (args' & Hrun & Hlen' & _ & Hin); [lia|].
    exists args'. split_and!; [done..|].
    intros i argT Hi. rewrite (Hin i argT Hi).
    by destruct (AssignableTo httpReqType argT), (AssignableTo httpRespType argT).
  - destruct (run_injector
                (λ b argT,
                   if AssignableTo contextType argT then Some (valueOfContext b)
                   else None) next b) as (args' & Hrun & Hlen' & _ & Hin); [lia|].
    exists args'. split_and!; [done..|].
    intros i argT Hi. rewrite (Hin i argT Hi).
    by destruct (AssignableTo contextType argT).
Qed.

(** X20. The order of the chain that [Orthodox] registers: after
    [HTTPRWDI] and [ContextDI], the slot search of [RequestObjectMapper]
    never selects a slot whose declared type accepts the request, so a
    parameter of type [*http.Request], which is a pointer to a struct, keeps
    the request and is not replaced by a decoded object. The one exception
    is a declared type that also accepts the context while the context is
    nil. *)
Theorem X20_orthodox_order_protects_request_slot (b : Bubble) :
  length (ArgumentTypes b) = length (Arguments b) →
  ∃ b1 b2,
    (∀ next,
       runMiddleware next
         (HTTPRWDI AssignableTo httpReqType httpRespType valueOfR valueOfW) b
       = next b1)
    ∧ (∀ next,
         runMiddleware next (ContextDI AssignableTo contextType valueOfContext) b1
         = next b2)
    ∧ ∀ idx argT,
        findArgument (ArgumentTypes b2) 0 (Arguments b2) = Some (Some (idx, argT)) →
        (AssignableTo contextType argT = true ∧ valueOfContext b1 = None)
        ∨ (AssignableTo contextType argT = false
           ∧ AssignableTo httpReqType argT = false
           ∧ (AssignableTo httpRespType argT = true → valueOfW b = None)).
Proof.
  intros Hlen.
  pose (injectRW := λ (b : Bubble) argT,
          if AssignableTo httpReqType argT then Some (Some (valueOfR b))
          else if AssignableTo httpRespType argT then Some (valueOfW b)
          else None).
  pose (injectC := λ (b : Bubble) argT,
          if AssignableTo contextType argT then Some (valueOfContext b)
          else None).
  destruct (injectLoop_spec (injectRW b) (ArgumentTypes b) 0 (Arguments b))
    as (args1 & Hloop1 & Hlen1 & _ & Hin1); [simpl; lia|].
  set (b1 := set_Arguments args1 b).
  destruct (injectLoop_spec (injectC b1) (ArgumentTypes b1) 0 (Arguments b1))
    as (args2 & Hloop2 & Hlen2 & _ & Hin2); [simpl; lia|].
  set (b2 := set_Arguments args2 b1).
  exists b1, b2. split_and!.
  - intros next. unfold HTTPRWDI, injector. cbn [runMiddleware].
    fold (injectRW b). rewrite Hloop1. cbn [fst snd runMiddleware].
    apply run_CallNext_Return.
  - intros next. unfold ContextDI, injector. cbn [runMiddleware].
    fold (injectC b1). rewrite Hloop2. cbn [fst snd runMiddleware].
    apply run_CallNext_Return.
  - intros idx argT Hfind.
    pose proof (findArgument_spec (ArgumentTypes b2) 0 (Arguments b2)) as Hspec.
    rewrite Hfind in Hspec.
    destruct Hspec as (k & -> & Hk & Ht & _); [simpl in *; lia|].
    simpl in Hk, Ht.
    pose proof (Hin2 k argT Ht) as H2. simpl in H2. rewrite Hk in H2.
    unfold injectC in H2.
    destruct (AssignableTo contextType argT); [left; split; [done|congruence]|].
    right. split; [done|].
    pose proof (Hin1 k argT Ht) as H1. simpl in H1.
    rewrite <- H2 in H1. unfold injectRW in H1.
    destruct (AssignableTo httpReqType argT); [done|]. split; [done|].
    destruct (AssignableTo httpRespType argT); [|done].
    intros _. congruence.
Qed.

End injector_properties.

(** ** The injectors on an example *)

(** The name of a type, as [Type.String()] prints it. *)
Fixpoint typeName (t : rtype) : string :=
  match t with
  | TScalar KString => "string"
  | TScalar _ => "scalar"
  | TPtr e => "*" ++ typeName e
  | TSlice e => "[]" ++ typeName e
  | TStruct n _ => n
  | TNamed n _ => n
  end.

(** Assignability between identical types only. *)
Definition exampleIdentical (t1 t2 : rtype) : bool :=
  bool_decide (typeName t1 = typeName t2).

Definition exampleRequestType : rtype := TPtr (TStruct "http.Request" []).

Definition exampleWriterType : rtype := TNamed "http.ResponseWriter" KInterface.

Definition exampleContextType : rtype := TNamed "context.Context" KInterface.

(** The bubble [newBubble] builds for a handler
    [func(w http.ResponseWriter, r *http.Request, req *Req)]. *)
Definition exampleInjectorBubble : Bubble :=
  {| R := exampleRequest "GET" "/"; b_Context := None;
     RequestHandler :=
       {| Handler :=
            IsFunc {| fn_In := [exampleWriterType; exampleRequestType;
                                TPtr exampleRequestStruct];
                      fn_Call := λ _, Some [] |} |};
     Debug := false; Handled := false;
     ArgumentTypes := [exampleWriterType; exampleRequestType;
                       TPtr exampleRequestStruct];
     Arguments := [None; None; None]; Returns := [];
     queueIndex := 2; trace := [EvMiddleware 0%nat; EvMiddleware 1%nat] |}.

Definition exampleValueOfR (b : Bubble) : rvalue :=
  VPtr (TStruct "http.Request" []) (Some (VStruct "http.Request" [])).

Definition exampleValueOfW (b : Bubble) : Value :=
  Some (VNamed "http.ResponseWriter" KInterface "w").

Definition exampleValueOfContext (b : Bubble) : Value :=
  Some (VNamed "context.Context" KInterface "ctx").

Lemma X19_injectors_fill_accepting_slots_witness :
  ∃ args',
    runMiddleware exampleNext
      (HTTPRWDI exampleIdentical exampleRequestType exampleWriterType
         exampleValueOfR exampleValueOfW) exampleInjectorBubble
    = exampleNext (set_Arguments args' exampleInjectorBubble)
    ∧ args' !! 1%nat = Some (Some (exampleValueOfR exampleInjectorBubble)).
Proof.
  destruct (X19_injectors_fill_accepting_slots exampleIdentical exampleRequestType
              exampleWriterType exampleContextType exampleValueOfR exampleValueOfW
              exampleValueOfContext exampleNext exampleInjectorBubble)
    as [(args' & Hrun & _ & Hin) _].
  - reflexivity.
  - exists args'. split; [exact Hrun|].
    exact (Hin 1%nat exampleRequestType eq_refl).
Defined.

Lemma X20_orthodox_order_protects_request_slot_witness :
  ∃ b1 b2,
    (∀ next,
       runMiddleware next
         (HTTPRWDI exampleIdentical exampleRequestType exampleWriterType
            exampleValueOfR exampleValueOfW) exampleInjectorBubble
       = next b1)
    ∧ (∀ next,
         runMiddleware next
           (ContextDI exampleIdentical exampleContextType exampleValueOfContext) b1
         = next b2)
    ∧ ∀ idx argT,
        findArgument (ArgumentTypes b2) 0 (Arguments b2) = Some (Some (idx, argT)) →
        (exampleIdentical exampleContextType argT = true
         ∧ exampleValueOfContext b1 = None)
        ∨ (exampleIdentical exampleContextType argT = false
           ∧ exampleIdentical exampleRequestType argT = false
           ∧ (exampleIdentical exampleWriterType argT = true
              → exampleValueOfW exampleInjectorBubble = None)).
Proof.
  apply (X20_orthodox_order_protects_request_slot exampleIdentical
           exampleRequestType exampleWriterType exampleContextType exampleValueOfR
           exampleValueOfW exampleValueOfContext exampleInjectorBubble).
  reflexivity.
Defined.

(** * middleware.go: CSRFProtect *)

(** What [opts.GenerateCookie(b.R)] returns: the cookie goes to the
    response writer, so what is kept is whether there is an error, a
    cookie, or neither ([http.SetCookie] panics on a nil cookie). *)
Inductive Generated : Type :=
  | GeneratedCookie
  | GeneratedNil
  | GeneratedError (err : error).

(** [CSRFOption]. *)
Record CSRFOption : Type := mkCSRFOption {
  Salt : string;
  SafeMethods : list string;
  CookieName : string;
  RequestHeaderName : string;
  GenerateCookie : option (Request → Generated)
}.

(** What [b.R.Cookie(name)] returns: the cookie with its value, nil with
    [http.ErrNoCookie], or nil with another error. *)
Inductive CookieResult : Type :=
  | FoundCookie (value : string)
  | ErrNoCookie
  | CookieFailure (err : error).

Definition ErrCSRFBadToken : error := newBadRequestf "invalid CSRF token".

(** The closure [contains] of [CSRFProtect]. *)
Fixpoint contains (strs : list string) (target : string) : bool :=
  match strs with
  | [] => false
  | str :: rest => if decide (str = target) then true else contains rest target
  end.

Section csrf.

(** The cookies and the headers of the request, which [Request] does not
    carry, and the error of [rand.Read] in the default generator. *)
Variable Cookie : Request → string → CookieResult.
Variable HeaderGet : Request → string → string.
Variable randRead : Request → option error.

(** The defaults that [CSRFProtect] assigns to the fields of [opts]. *)
Definition withDefaults (opts : CSRFOption) : CSRFOption :=
  {| Salt := Salt opts;
     SafeMethods :=
       if (length (SafeMethods opts) =? 0)%nat
       then ["GET"; "HEAD"; "OPTIONS"; "TRACE"] else SafeMethods opts;
     CookieName :=
       if decide (CookieName opts = "") then "XSRF-TOKEN" else CookieName opts;
     RequestHeaderName :=
       if decide (RequestHeaderName opts = "") then "X-XSRF-TOKEN"
       else RequestHeaderName opts;
     GenerateCookie :=
       match GenerateCookie opts with
       | Some generate => Some generate
       | None =>
           Some (λ r, match randRead r with
                      | Some err => GeneratedError err
                      | None => GeneratedCookie
                      end)
       end |}.

(** The closure [middleware] of [CSRFProtect], over the options as
    [CSRFProtect] has left them. *)
Definition csrfMiddleware (opts : CSRFOption) : MiddlewareFunc :=
  let next :=
    CallNext (λ err, match err with
                     | Some e => Return (Some e)
                     | None => Return None
                     end) in
  Inspect (λ b,
    if contains (SafeMethods opts) (r_Method (R b)) then
      match Cookie (R b) (CookieName opts) with
      | ErrNoCookie =>
          match GenerateCookie opts with
          | None => Panic
          | Some generate =>
              match generate (R b) with
              | GeneratedError err => Return (Some err)
              | GeneratedNil => Panic
              | GeneratedCookie => next
              end
          end
      | CookieFailure err => Return (Some err)
      | FoundCookie _ => next
      end
    else
      let csrfTokenRequest := HeaderGet (R b) (RequestHeaderName opts) in
      match Cookie (R b) (CookieName opts) with
      | FoundCookie value =>
          if decide (csrfTokenRequest = "") then Return (Some ErrCSRFBadToken)
          else if decide (csrfTokenRequest ≠ value) then Return (Some ErrCSRFBadToken)
          else next
      | _ => Return (Some ErrCSRFBadToken)
      end).

(** [CSRFProtect]: the error, or the middleware. *)
Definition CSRFProtect (opts : option CSRFOption) : error + MiddlewareFunc :=
  match opts with
  | None => inl (errorString "opts is required")
  | Some opts =>
      match GenerateCookie opts with
      | None =>
          if (String.length (Salt opts) =? 0)%nat
          then inl (errorString "opts.Salt is required")
          else inr (csrfMiddleware (withDefaults opts))
      | Some _ => inr (csrfMiddleware (withDefaults opts))
      end
  end.

(** ** Properties of the token check *)

Lemma contains_elem_of (strs : list string) (target : string) :
  contains strs target = bool_decide (target ∈ strs).
Proof.
  induction strs as [|str rest IH].
  { rewrite bool_decide_eq_false_2; [done|]. by intros ?%elem_of_nil. }
  cbn [contains]. destruct (decide (str = target)) as [->|Hne].
  - by rewrite bool_decide_eq_true_2 by (by left).
  - rewrite IH. apply bool_decide_ext. rewrite elem_of_cons. naive_solver.
Qed.

Lemma run_next_and_return next (b : Bubble) :
  runMiddleware next
    (CallNext (λ err, match err with
                      | Some e => Return (Some e)
                      | None => Return None
                      end)) b
  = next b.
Proof.
  simpl. destruct (next b) as [[b' [[e|]|]]|]; done.
Qed.

Lemma CSRFProtect_middleware (opts : CSRFOption) (mw : MiddlewareFunc) :
  CSRFProtect (Some opts) = inr mw → mw = csrfMiddleware (withDefaults opts).
Proof.
  unfold CSRFProtect.
  destruct (GenerateCookie opts); [by intros [= <-]|].
  destruct (String.length (Salt opts) =? 0)%nat; [done|by intros [= <-]].
Qed.

(** X21. The token check of the middleware that [CSRFProtect] returns. A
    request whose method is not among the safe methods reaches [Next]
    exactly when it carries the token twice, as a non-empty value of the
    request header and as the value of the cookie, and the two are equal;
    otherwise the middleware returns [ErrCSRFBadToken], status code 400, the
    bubble is as it was and the rest of the chain is not run. A request
    with a safe method that has the cookie reaches [Next] whatever its
    header says. The names looked up are never empty. *)
Theorem X21_csrf_token_check (opts : CSRFOption) (mw : MiddlewareFunc)
    next (b : Bubble) :
  CSRFProtect (Some opts) = inr mw →
  let o := withDefaults opts in
  let token := HeaderGet (R b) (RequestHeaderName o) in
  CookieName o ≠ "" ∧ RequestHeaderName o ≠ ""
  ∧ (r_Method (R b) ∉ SafeMethods o →
     (token ≠ "" ∧ Cookie (R b) (CookieName o) = FoundCookie token →
      runMiddleware next mw b = next b)
     ∧ (token = "" ∨ Cookie (R b) (CookieName o) ≠ FoundCookie token →
        runMiddleware next mw b
        = Some (b, Returned (Some (httpError 400 "invalid CSRF token")))))
  ∧ (r_Method (R b) ∈ SafeMethods o →
     ∀ value, Cookie (R b) (CookieName o) = FoundCookie value →
              runMiddleware next mw b = next b).
Proof.
  intros Hmw o token. rewrite (CSRFProtect_middleware opts mw Hmw). fold o.
  split_and!.
  - simpl. by destruct (decide (CookieName opts = "")).
  - simpl. by destruct (decide (RequestHeaderName opts = "")).
  - intros Hunsafe.
    assert (Hcontains : contains (SafeMethods o) (r_Method (R b)) = false).
    { rewrite contains_elem_of. by apply bool_decide_eq_false. }
    unfold csrfMiddleware. cbn [runMiddleware]. rewrite Hcontains. cbv zeta.
    fold token. split.
    + intros [Htoken Hcookie]. rewrite Hcookie.
      rewrite decide_False by done.
      rewrite decide_False by (by intros ?).
      apply run_next_and_return.
    + intros Hbad.
      destruct (Cookie (R b) (CookieName o)) as [value| |err]; [|done..].
      destruct (decide (token = "")) as [|Htoken]; [done|].
      destruct (decide (token ≠ value)) as [|Heq]; [done|].
      apply dec_stable in Heq. subst value. by destruct Hbad.
  - intros Hsafe value Hcookie.
    assert (Hcontains : contains (SafeMethods o) (r_Method (R b)) = true).
    { rewrite contains_elem_of. by apply bool_decide_eq_true. }
    unfold csrfMiddleware. cbn [runMiddleware]. rewrite Hcontains, Hcookie.
    apply run_next_and_return.
Qed.

(** X22. [CSRFProtect] refuses the options exactly when they are nil or
    have neither a cookie generator nor a salt. The safe methods of the
    middleware are the ones given, or [GET], [HEAD], [OPTIONS] and [TRACE]
    when none is given, and a request method is compared with them as it
    is: with the default safe methods, a request whose method is none of
    the four words in upper case has its token checked, and without a
    token it is refused. *)
Theorem X22_csrf_options (opts : option CSRFOption) :
  ((∃ err, CSRFProtect opts = inl err)
   ↔ opts = None
     ∨ ∃ o, opts = Some o ∧ GenerateCookie o = None ∧ Salt o = "")
  ∧ ∀ o mw next b,
      opts = Some o →
      CSRFProtect opts = inr mw →
      SafeMethods o = [] →
      r_Method (R b) ∉ ["GET"; "HEAD"; "OPTIONS"; "TRACE"] →
      HeaderGet (R b) (RequestHeaderName (withDefaults o)) = "" →
      runMiddleware next mw b
      = Some (b, Returned (Some (httpError 400 "invalid CSRF token"))).
Proof.
  split.
  - destruct opts as [o|]; simpl.
    + destruct (GenerateCookie o) as [g|] eqn:Hgen.
      * split; [by intros [err [=]]|].
        intros [[=]|(o' & [= <-] & Hnone & _)]. congruence.
      * destruct (Salt o) as [|c salt] eqn:Hsalt; simpl.
        -- split; [|by eexists]. intros _. right. by exists o.
        -- split; [by intros [err [=]]|].
           intros [[=]|(o' & [= <-] & _ & Hempty)]. congruence.
    + split; [by left|by eexists].
  - intros o mw next b -> Hmw Hsafe Hmethod Htoken.
    rewrite (CSRFProtect_middleware o mw Hmw).
    assert (Hcontains :
      contains (SafeMethods (withDefaults o)) (r_Method (R b)) = false).
    { rewrite contains_elem_of. apply bool_decide_eq_false.
      simpl. by rewrite Hsafe. }
    unfold csrfMiddleware. cbn [runMiddleware]. rewrite Hcontains. cbv zeta.
    rewrite Htoken.
    by destruct (Cookie (R b) (CookieName (withDefaults o))).
Qed.

End csrf.

(** ** The token check on an example *)

(** A request that carries the cookie [XSRF-TOKEN=t] and the header
    [X-XSRF-TOKEN: t]. *)
Definition exampleCookie (r : Request) (name : string) : CookieResult :=
  if decide (name = "XSRF-TOKEN") then FoundCookie "t" else ErrNoCookie.

Definition exampleHeaderGet (r : Request) (name : string) : string :=
  if decide (name = "X-XSRF-TOKEN") then "t" else "".

(** A request without headers. *)
Definition exampleNoHeader (r : Request) (name : string) : string := "".

Definition exampleRandRead (r : Request) : option error := None.

Definition exampleCSRFOption : CSRFOption :=
  {| Salt := "salt"; SafeMethods := []; CookieName := "";
     RequestHeaderName := ""; GenerateCookie := None |}.

Lemma X21_csrf_token_check_witness :
  runMiddleware exampleNext
    (csrfMiddleware exampleCookie exampleHeaderGet
       (withDefaults exampleRandRead exampleCSRFOption))
    (exampleBodyBubble "" "")
  = exampleNext (exampleBodyBubble "" "").
Proof.
  destruct (X21_csrf_token_check exampleCookie exampleHeaderGet exampleRandRead
              exampleCSRFOption
              (csrfMiddleware exampleCookie exampleHeaderGet
                 (withDefaults exampleRandRead exampleCSRFOption))
              exampleNext (exampleBodyBubble "" "") eq_refl)
    as (_ & _ & Hunsafe & _).
  apply Hunsafe.
  - vm_compute. intros Hin. by repeat (apply elem_of_cons in Hin as [Hin|Hin];
      [discriminate Hin|]); apply elem_of_nil in Hin.
  - split; [discriminate|reflexivity].
Defined.

Lemma X22_csrf_options_witness :
  runMiddleware exampleNext
    (csrfMiddleware exampleCookie exampleNoHeader
       (withDefaults exampleRandRead exampleCSRFOption))
    (exampleBodyBubble "" "")
  = Some (exampleBodyBubble "" "",
          Returned (Some (httpError 400 "invalid CSRF token"))).
Proof.
  refine (proj2 (X22_csrf_options exampleCookie exampleNoHeader exampleRandRead
                   (Some exampleCSRFOption))
            exampleCSRFOption _ exampleNext (exampleBodyBubble "" "")
            eq_refl eq_refl eq_refl _ eq_refl).
  intros Hin.
  repeat (apply elem_of_cons in Hin as [Hin|Hin]; [discriminate Hin|]).
  by apply elem_of_nil in Hin.
Defined.
